(** * dbt-core utilities: a shallow embedding of [core/dbt/utils.py]

    The development follows the Python module top to bottom: the
    [Translator] class and [translate_aliases], [fqn_search], the
    [MultiDict] mapping and [_connection_exception_retry]; the two task
    entry points exercised by [tests/unit/task] close the file.

    Python values live in a store of objects addressed by location, so
    that aliasing and self-reference are expressible.  Exceptions are an
    inductive type and every fallible function returns a [result]. *)

From stdpp Require Import gmap strings list fin_maps pretty.
From Stdlib Require Import ZArith Lia.

Set Warnings "-register-all".

Open Scope Z_scope.
Open Scope string_scope.
Open Scope list_scope.

(** ** Python values and the object store *)

Abbreviation loc := nat (only parsing).

(** A value is an immediate or a reference to an object of the store. *)
Inductive value : Type :=
| VNone
| VBool (b : bool)
| VInt (z : Z)
| VStr (s : string)
| VRef (l : loc).

Global Instance value_eq_dec : EqDecision value.
Proof. solve_decision. Defined.

(** A [dict] keeps its items in insertion order, one item per key. *)
Inductive object : Type :=
| ODict (items : list (string * value))
| OList (elems : list value)
| OTuple (elems : list value)
| OOpaque.

Abbreviation heap := (gmap nat object) (only parsing).

(** What canonicalization builds: fresh dicts and lists, whose leaves are
    the values of the input, kept as they are (a reference stays the
    same reference). *)
Inductive tvalue : Type :=
| TKeep (v : value)
| TDict (items : list (string * tvalue))
| TList (elems : list tvalue).

(** [key in d], [d.get(key)] and [d[key] = v] on the items of a dict *)
Definition dict_in {A} (items : list (string * A)) (key : string) : bool :=
  bool_decide (key ∈ items.*1).

Fixpoint dict_lookup {A} (items : list (string * A)) (key : string)
  : option A :=
  match items with
  | [] => None
  | (k, v) :: rest => if decide (k = key) then Some v else dict_lookup rest key
  end.

Fixpoint dict_setitem {A} (items : list (string * A)) (key : string) (v : A)
  : list (string * A) :=
  match items with
  | [] => [(key, v)]
  | (k, w) :: rest =>
      if decide (k = key) then (k, v) :: rest
      else (k, w) :: dict_setitem rest key v
  end.

(** [isinstance(value, dict)] (also [Mapping]: dicts are the only
    mappings of the store) and [isinstance(value, (list, tuple))] *)
Definition as_dict (h : heap) (v : value) : option (list (string * value)) :=
  match v with
  | VRef l => match h !! l with Some (ODict items) => Some items | _ => None end
  | _ => None
  end.

Definition as_sequence (h : heap) (v : value) : option (list value) :=
  match v with
  | VRef l =>
      match h !! l with
      | Some (OList elems) | Some (OTuple elems) => Some elems
      | _ => None
      end
  | _ => None
  end.

(** ** Exceptions and results *)

(** The exception classes the module raises, catches or lets through.
    [BuiltinRecursionError] is the interpreter's own error on stack
    exhaustion, a subclass of [RuntimeError]; [RecursionError] is the one
    the module imports from [dbt.common.exceptions].
    [DuplicateAliasError] keeps the three arguments it is raised
    with. *)
Inductive exn : Type :=
| KeyError (name : string)
| AttributeError (msg : string)
| DuplicateAliasError (kwargs : list (string * value))
    (aliases : gmap string string) (canonical_key : string)
| RuntimeError (msg : string)
| BuiltinRecursionError (msg : string)
| RecursionError (msg : string)
| RequestException (msg : string)
| ReadError (msg : string)
| EOFError (msg : string)
| ConnectionError (msg : string)
| KeyboardInterrupt (msg : string)
| SystemExit (msg : string)
| Exception (msg : string).

Global Instance exn_eq_dec : EqDecision exn.
Proof. solve_decision. Defined.

(** [DuplicateAliasError] comes from [dbt.exceptions], by the import at
    the top of the module.  It is a [RuntimeError] by way of
    [DbtRuntimeError].  Its message lists the keys of [kwargs] that the
    alias table sends to the canonical key, and then the canonical key
    in double quotes; its [str] is a header line and, under it, the
    message with every line indented by two blanks. *)
Definition double_quote : string := String (Ascii.ascii_of_nat 34) EmptyString.

Definition newline : Ascii.ascii := Ascii.ascii_of_nat 10.

Definition get_message (kwargs : list (string * value))
    (aliases : gmap string string) (canonical_key : string) : string :=
  let key_names :=
    String.concat ", "
      (filter (fun k => aliases !! k = Some canonical_key) kwargs.*1) in
  "Got duplicate keys: (" +:+ key_names +:+ ") all map to "
  +:+ double_quote +:+ canonical_key +:+ double_quote.

Fixpoint indented (msg : string) : string :=
  match msg with
  | EmptyString => EmptyString
  | String c rest =>
      if Ascii.eqb c newline then String c ("  " +:+ indented rest)
      else String c (indented rest)
  end.

(** [str(exc)]: the message, but for [DuplicateAliasError], whose class
    formats it. *)
Definition str (exc : exn) : string :=
  match exc with
  | DuplicateAliasError kwargs aliases canonical_key =>
      "Runtime Error" +:+ String newline "  "
      +:+ indented (get_message kwargs aliases canonical_key)
  | KeyError m | AttributeError m | RuntimeError m
  | BuiltinRecursionError m | RecursionError m | RequestException m
  | ReadError m | EOFError m | ConnectionError m | KeyboardInterrupt m
  | SystemExit m | Exception m => m
  end.

Inductive result (A : Type) : Type :=
| Return (a : A)
| Raise (e : exn).
Arguments Return {A} a.
Arguments Raise {A} e.

Definition bind {A B} (r : result A) (k : A → result B) : result B :=
  match r with
  | Return a => k a
  | Raise e => Raise e
  end.

Notation "'let!' x ':=' r 'in' k" := (bind r (fun x => k))
  (at level 10, x name, r at level 100, k at level 200, only parsing).

(** ** [class Translator] *)

(** [s in t] on strings *)
Fixpoint str_in (s t : string) : bool :=
  String.prefix s t ||
  match t with
  | EmptyString => false
  | String _ t' => str_in s t'
  end.

(** [isinstance(exc, RuntimeError)]: the builtin class, the
    interpreter's [RecursionError] under it, and the two classes of dbt
    that descend from [DbtRuntimeError]. *)
Definition isinstance_RuntimeError (exc : exn) : bool :=
  match exc with
  | RuntimeError _ | BuiltinRecursionError _
  | DuplicateAliasError _ _ _ | RecursionError _ => true
  | _ => false
  end.

Record Translator := {
  aliases : gmap string string;
  recursive : bool
}.

(** [aliases.get(key, key)] *)
Definition canonical (aliases : gmap string string) (key : string) : string :=
  default key (aliases !! key).

Section Translator.
(** The store the input lives in, and the interpreter: [note] is what
    it appends to its stack-exhaustion message (empty, or the likes of
    " while calling a Python object"). *)
Variable h : heap.
Variable note : string.
Variable self : Translator.

Definition stack_exhausted : exn :=
  BuiltinRecursionError ("maximum recursion depth exceeded" +:+ note).

(** Methods reach each other through [self]; here the callee
    [translate_value] is the parameter [tv].  The loop of
    [translate_mapping] runs over [items], the items of [kwargs] it has
    not visited yet. *)
Fixpoint translate_items (tv : value → result tvalue)
    (kwargs items : list (string * value)) (result : list (string * tvalue))
  : _ :=
  match items with
  | [] => Return result
  | (key, value) :: rest =>
      let canonical_key := canonical (aliases self) key in
      if dict_in result canonical_key
      then Raise (DuplicateAliasError kwargs (aliases self) canonical_key)
      else
        let! v := tv value in
        translate_items tv kwargs rest (dict_setitem result canonical_key v)
  end.

Definition translate_mapping_via (tv : value → result tvalue)
    (kwargs : list (string * value)) : result tvalue :=
  let! result := translate_items tv kwargs kwargs [] in
  Return (TDict result).

Fixpoint translate_elems (tv : value → result tvalue) (value : list value)
  : result (list tvalue) :=
  match value with
  | [] => Return []
  | v :: rest =>
      let! v' := tv v in
      let! rest' := translate_elems tv rest in
      Return (v' :: rest')
  end.

Definition translate_sequence_via (tv : value → result tvalue)
    (value : list value) : result tvalue :=
  let! elems := translate_elems tv value in
  Return (TList elems).

(** [depth] is the number of further container levels the interpreter
    stack has room for; descending with none left is the interpreter's
    stack-exhaustion error. *)
Fixpoint translate_value (depth : nat) (value : value) {struct depth}
  : result tvalue :=
  if recursive self then
    match as_dict h value with
    | Some items =>
        match depth with
        | O => Raise stack_exhausted
        | S d => translate_mapping_via (translate_value d) items
        end
    | None =>
        match as_sequence h value with
        | Some elems =>
            match depth with
            | O => Raise stack_exhausted
            | S d => translate_sequence_via (translate_value d) elems
            end
        | None => Return (TKeep value)
        end
    end
  else Return (TKeep value).

Definition translate_mapping (depth : nat) (kwargs : list (string * value))
  : result tvalue :=
  translate_mapping_via (translate_value depth) kwargs.

Definition translate_sequence (depth : nat) (value : list value)
  : result tvalue :=
  translate_sequence_via (translate_value depth) value.

Definition translate (depth : nat) (value : list (string * value))
  : result tvalue :=
  match translate_mapping depth value with
  | Return r => Return r
  | Raise exc =>
      if isinstance_RuntimeError exc then
        if str_in "maximum recursion depth exceeded" (str exc)
        then Raise (RecursionError "Cycle detected in a value passed to translate!")
        else Raise exc
      else Raise exc
  end.
End Translator.

(** [kwargs] are the items of the dict passed in, in iteration order. *)
Definition translate_aliases (h : heap) (note : string) (depth : nat)
    (kwargs : list (string * value)) (aliases : gmap string string)
    (recurse : bool) : result tvalue :=
  let translator := {| aliases := aliases; recursive := recurse |} in
  translate h note translator depth kwargs.

(** *** The vocabulary of the claims about canonicalization *)

Definition cycle_detected : exn :=
  RecursionError "Cycle detected in a value passed to translate!".

(** The test of the [except] clause of [translate] on [str(exc)] *)
Definition mentions_recursion_depth (exc : exn) : bool :=
  str_in "maximum recursion depth exceeded" (str exc).


(** Every dict of the store has one item per key. *)
Definition object_wf (o : object) : Prop :=
  match o with
  | ODict items => NoDup items.*1
  | _ => True
  end.

Global Instance object_wf_dec o : Decision (object_wf o).
Proof. destruct o; simpl; apply _. Defined.

Definition heap_wf (h : heap) : Prop :=
  map_Forall (fun _ o => object_wf o) h.

(** Two distinct keys of one mapping level with the same canonical key *)
Definition collide (aliases : gmap string string)
    (items : list (string * value)) : Prop :=
  ∃ k1 k2, k1 ≠ k2 ∧ k1 ∈ items.*1 ∧ k2 ∈ items.*1
           ∧ canonical aliases k1 = canonical aliases k2.

(** [child h v v']: [v] is a dict, list or tuple and [v'] one of the
    values it holds. *)
Definition child (h : heap) (v v' : value) : Prop :=
  (∃ items, as_dict h v = Some items ∧ v' ∈ items.*2)
  ∨ (∃ elems, as_sequence h v = Some elems ∧ v' ∈ elems).


(** The mapping levels canonicalization is to rename: the one passed in
    and, in recursive mode, every dict below it. *)
Definition level_of (h : heap) (recurse : bool)
    (kwargs items : list (string * value)) : Prop :=
  items = kwargs
  ∨ (recurse = true
     ∧ ∃ v0 v, v0 ∈ kwargs.*2 ∧ rtc (child h) v0 v ∧ as_dict h v = Some items).

Definition collides_in (h : heap) (aliases : gmap string string)
    (recurse : bool) (kwargs : list (string * value)) : Prop :=
  ∃ items, level_of h recurse kwargs items ∧ collide aliases items.








Definition adapter_config : heap :=
  {[ 0%nat := ODict [("dataset", VStr "d")] ]}.

Definition adapter_aliases : gmap string string :=
  {[ "project" := "database"; "dataset" := "schema" ]}.

(** A chain of [n] dicts, each holding the next under ["next"], the last
    one empty *)
Definition deep_config (n : nat) : heap :=
  <[ n := ODict [] ]>
    (list_to_map ((fun i : nat => (i, ODict [("next", VRef (S i))])) <$> seq 0 n)).

(** ** [fqn_search] *)

(** [root.get(level, None)] *)
Definition dict_get (h : heap) (root : value) (level : string)
  : result value :=
  match as_dict h root with
  | Some items => Return (default VNone (dict_lookup items level))
  | None => Raise (AttributeError "object has no attribute 'get'")
  end.

(** A generator, run to its end: what it yielded, and the exception that
    ended it if one did. *)
Definition generated (A : Type) : Type := (list A * option exn)%type.

Fixpoint fqn_levels (h : heap) (root : value) (fqn : list string)
  : generated value :=
  match fqn with
  | [] => ([], None)
  | level :: rest =>
      match dict_get h root level with
      | Raise e => ([], Some e)
      | Return level_config =>
          match as_dict h level_config with
          | None => ([], None)
          | Some _ =>
              let '(more, e) := fqn_levels h level_config rest in
              (level_config :: more, e)
          end
      end
  end.

Definition fqn_search (h : heap) (root : value) (fqn : list string)
  : generated value :=
  let '(levels, e) := fqn_levels h root fqn in
  (root :: levels, e).

(** The level a qualified path leads to, in the words of the
    specification: every segment descends one level, provided that level
    exists under that name and is itself a nested mapping. *)
Fixpoint level_at (h : heap) (root : value) (path : list string)
  : option value :=
  match path with
  | [] => Some root
  | segment :: rest =>
      items ← as_dict h root;
      inner ← dict_lookup items segment;
      _ ← as_dict h inner;
      level_at h inner rest
  end.

(** [{"a": {"b": {"c": 1}}}], one object per dict *)
Definition nested_config : heap :=
  {[ 0%nat := ODict [("a", VRef 1)];
     1%nat := ODict [("b", VRef 2)];
     2%nat := ODict [("c", VInt 1)] ]}.

(** ** [class MultiDict] *)

Module MultiDict.
Section MultiDict.
Context {V : Type}.

(** A layer is a mapping object; only membership and subscript are used
    on it, so its iteration order is not modelled. *)
Record t := mk { sources : list (gmap string V) }.

Definition __init__ (srcs : option (list (gmap string V))) : t :=
  match srcs with
  | None => mk []
  | Some l => mk l
  end.

Definition add_from (self : t) (srcs : list (gmap string V)) : t :=
  mk (sources self ++ srcs).

Definition add (self : t) (source : gmap string V) : t :=
  mk (sources self ++ [source]).

Definition _itersource (self : t) : list (gmap string V) :=
  reverse (sources self).

Definition _keyset (self : t) : gset string :=
  foldl (fun keys entry => keys ∪ dom entry) ∅ (_itersource self).

Definition __len__ (self : t) : nat := size (_keyset self).

(** [name in entry] and [entry[name]] on one layer *)
Definition dict_contains (entry : gmap string V) (name : string) : bool :=
  bool_decide (is_Some (entry !! name)).

Definition dict_getitem (entry : gmap string V) (name : string) : result V :=
  match entry !! name with
  | Some v => Return v
  | None => Raise (KeyError name)
  end.

Fixpoint getitem_loop (entries : list (gmap string V)) (name : string)
  : result V :=
  match entries with
  | [] => Raise (KeyError name)
  | entry :: rest =>
      if dict_contains entry name then dict_getitem entry name
      else getitem_loop rest name
  end.

Definition __getitem__ (self : t) (name : string) : result V :=
  getitem_loop (_itersource self) name.

Definition __contains__ (self : t) (name : string) : bool :=
  existsb (fun entry => dict_contains entry name) (_itersource self).

End MultiDict.
Arguments t V : clear implicits.
End MultiDict.


(** ** [_connection_exception_retry] *)

Inductive event : Type :=
| RecordRetryException (exc : string)
| RetryExternalCall (attempt max : Z).

(** [except (requests.exceptions.RequestException, ReadError, EOFError)] *)
Definition is_transient (exc : exn) : bool :=
  match exc with
  | RequestException _ | ReadError _ | EOFError _ => true
  | _ => false
  end.

(** What the wrapper fires before a retry, and what it raises when it
    gives up *)
Definition retry_events (attempt max_attempts : Z) (exc : exn) : list event :=
  [RecordRetryException (str exc); RetryExternalCall attempt max_attempts].

Definition retry_message (exc : exn) : exn :=
  ConnectionError ("External connection exception occurred: " +:+ str exc).

Section Retry.
(** The external call [fn] acts on a state of its own, of type [St], and
    returns an [R] or raises. *)
Context {St R : Type}.

(** What the wrapper touches besides: the events it fired (latest
    last) and the seconds it slept. *)
Record world := World {
  external : St;
  fired : list event;
  slept : Z
}.

Definition call (fn : St → result R * St) (w : world) : result R * world :=
  let '(r, s) := fn (external w) in
  (r, World s (fired w) (slept w)).

Definition fire_event (e : event) (w : world) : world :=
  World (external w) (fired w ++ [e]) (slept w).

Definition sleep (seconds : Z) (w : world) : world :=
  World (external w) (fired w) (slept w + seconds).

(** Every retry is a call of the function from inside the handler of
    the call before, so a run with [k] retries is [k + 1] calls deep.
    [stack] is the number of retries the interpreter stack has room
    for.  With none left the handler does not get through: its first
    call, which is [fire_event] and runs deeper than the function
    itself, ends in the interpreter's stack-exhaustion error, which
    leaves the handler as it is, no caught class being in force
    there. *)
Fixpoint _connection_exception_retry (stack : nat)
    (fn : St → result R * St) (max_attempts attempt : Z) (w : world)
    {struct stack} : result R * world :=
  match call fn w with
  | (Return r, w1) => (Return r, w1)
  | (Raise exc, w1) =>
      if is_transient exc then
        if decide (attempt ≤ max_attempts - 1)%Z then
          match stack with
          | O =>
              (Raise (BuiltinRecursionError "maximum recursion depth exceeded"),
               w1)
          | S stack' =>
              let w2 := fire_event (RecordRetryException (str exc)) w1 in
              let w3 := fire_event (RetryExternalCall attempt max_attempts) w2 in
              let w4 := sleep 1 w3 in
              _connection_exception_retry stack' fn max_attempts (attempt + 1) w4
          end
        else
          (Raise (ConnectionError
                    ("External connection exception occurred: "
                     +:+ str exc)), w1)
      else (Raise exc, w1)
  end.

(** The state of the action after [k] invocations from [s] *)
Fixpoint state_after (fn : St → result R * St) (k : nat) (s : St) : St :=
  match k with
  | O => s
  | S k' => state_after fn k' (fn s).2
  end.

(** A call counter around an action, as a mock keeps one. *)
Definition counting (fn : St → result R * St)
  : St * nat → result R * (St * nat) :=
  fun '(s, n) => let '(r, s') := fn s in (r, (s', S n)).
End Retry.
Arguments world St : clear implicits.

(** Three external calls to try the wrapper on; their state is the
    number of times they ran.  The first is down for its first two
    invocations, the second never answers, the third fails with an
    exception the wrapper does not catch. *)
Definition flaky_twice (ran : nat) : result string * nat :=
  (if (ran <? 2)%nat then Raise (RequestException "connection reset")
   else Return "payload",
   S ran).

Definition always_down (ran : nat) : result string * nat :=
  (Raise (ReadError "unexpected end of data"), S ran).

Definition misconfigured (ran : nat) : result string * nat :=
  (Raise (Exception "no such registry"), S ran).

(** ** The run and clone tasks ([dbt.task.run], [dbt.task.clone]) *)

Module Task.
Inductive kind : Type := Run | Clone.

(** Modelled from the spec: the edge-preservation flag a task asks its
    graph queue with.  The task classes are not among the sources, only
    their unit tests are.  A run needs every original upstream effect
    to have occurred, also through unselected nodes; a clone is a
    destructive copy for which only the order within the selection
    matters. *)
Definition preserve_edges (k : kind) : bool :=
  match k with
  | Run => true
  | Clone => false
  end.

Section Queue.
Context {Spec Queue : Type}.

(** Modelled from the spec: [get_graph_queue] of a task hands its
    selection spec and its flag to the node selector, the
    collaborator [select(graph, spec, preserveEdges)] of the spec
    with the graph already bound. *)
Definition get_graph_queue (k : kind)
    (node_selector : Spec → bool → Queue) (spec : Spec) : Queue :=
  node_selector spec (preserve_edges k).
End Queue.

(** The adapter as the scheduler sees it: how often it was told to
    cancel its open connections. *)
Record adapter := Adapter { cancel_calls : nat }.

Definition _cancel_connections (a : adapter) : adapter :=
  Adapter (S (cancel_calls a)).

(** Process-level interrupt conditions *)
Definition is_interrupt (exc : exn) : bool :=
  match exc with
  | KeyboardInterrupt _ | SystemExit _ => true
  | _ => false
  end.

(** Modelled from the spec: [execute_nodes] of the run task, absent
    from the sources.  It drives the run loop [run_queue]; on an
    interrupt or system exit raised from within the loop it tells the
    adapter to cancel all open connections and raises the same
    condition again; any other exception passes through untouched. *)
Definition execute_nodes {A} (run_queue : adapter → result A * adapter)
    (a : adapter) : result A * adapter :=
  match run_queue a with
  | (Return r, a') => (Return r, a')
  | (Raise exc, a') =>
      if is_interrupt exc then (Raise exc, _cancel_connections a')
      else (Raise exc, a')
  end.
End Task.

(** ** The helpers of the module *)

(** The exceptions these helpers add to the ones above: [Exn] for any of
    those, raised by code the helpers call. *)
Inductive raised : Type :=
| Exn (exc : exn)
| DbtInternalError (msg : string)
| TypeError (msg : string).

Inductive outcome (A : Type) : Type :=
| Done (a : A)
| Failed (e : raised).
Arguments Done {A} a.
Arguments Failed {A} e.

(** [coalesce], on the tuple of its arguments *)
Fixpoint coalesce (args : list value) : value :=
  match args with
  | [] => VNone
  | arg :: rest =>
      match arg with
      | VNone => coalesce rest
      | _ => arg
      end
  end.

Definition MACRO_PREFIX : string := "dbt_macro__".
Definition DOCS_PREFIX : string := "dbt_docs__".

(** A name is a [str] or [None]. *)
Definition get_dbt_macro_name (name : option string) : outcome string :=
  match name with
  | None => Failed (DbtInternalError "Got None for a macro name!")
  | Some name => Done (MACRO_PREFIX +:+ name)
  end.

Definition get_dbt_docs_name (name : option string) : outcome string :=
  match name with
  | None => Failed (DbtInternalError "Got None for a doc name!")
  | Some name => Done (DOCS_PREFIX +:+ name)
  end.

Definition get_materialization_macro_name (materialization_name : string)
    (adapter_type : option string) (with_prefix : bool) : outcome string :=
  let adapter_type := default "default" adapter_type in
  let name :=
    "materialization_" +:+ materialization_name +:+ "_" +:+ adapter_type in
  if with_prefix then get_dbt_macro_name (Some name) else Done name.

(** Without the prefix the argument comes back as it is, [None]
    included. *)
Definition get_docs_macro_name (docs_name : option string)
    (with_prefix : bool) : outcome (option string) :=
  if with_prefix then
    match get_dbt_docs_name docs_name with
    | Done name => Done (Some name)
    | Failed e => Failed e
    end
  else Done docs_name.

Definition get_test_macro_name (test_name : string) (with_prefix : bool)
  : outcome string :=
  let name := "test_" +:+ test_name in
  if with_prefix then get_dbt_macro_name (Some name) else Done name.

Definition add_ephemeral_model_prefix (s : string) : string :=
  "__dbt__cte__" +:+ s.

(** [divmod(a, b)] on integers, for a positive [b] *)
Definition divmod (a b : Z) : Z * Z := (a `div` b, a `mod` b).

(** [humanize_execution_time] on the integers its annotation asks for:
    [int(hours)] and [int(minutes)] print as they are, and the format
    [0.2f] prints an integer with two zero decimals. *)
Definition humanize_execution_time (execution_time : Z) : string :=
  let '(minutes, seconds) := divmod execution_time 60 in
  let '(hours, minutes) := divmod minutes 60 in
  " in " +:+ pretty hours +:+ " hours " +:+ pretty minutes
  +:+ " minutes and " +:+ pretty seconds +:+ ".00 seconds".

(** [hash(v)] goes through: a dict or a list has no hash, a tuple has
    one when its elements have.  Tuples nest finitely, no deeper than
    there are objects, which is what [fuel] is for. *)
Fixpoint hashable (h : heap) (fuel : nat) (v : value) : bool :=
  match v with
  | VRef l =>
      match h !! l with
      | Some (ODict _) | Some (OList _) => false
      | Some (OTuple elems) =>
          match fuel with
          | O => false
          | S fuel' => forallb (hashable h fuel') elems
          end
      | _ => true
      end
  | _ => true
  end.

(** [d.get(key, {})], where [d] and [key] are values of the store or
    the empty dict a default just made: the key is hashed first, and
    only a [str] can be a key of [d]. *)
Definition get_or_empty (h : heap) (d : list (string * value))
    (key : tvalue) : outcome tvalue :=
  match key with
  | TKeep k =>
      if hashable h (size h) k then
        match k with
        | VStr name =>
            match dict_lookup d name with
            | Some v => Done (TKeep v)
            | None => Done (TDict [])
            end
        | _ => Done (TDict [])
        end
      else Failed (TypeError "unhashable type")
  | _ => Failed (TypeError "unhashable type")
  end.

Definition get_profile_from_project (h : heap) (project : value)
  : outcome tvalue :=
  match as_dict h project with
  | None => Failed (Exn (AttributeError "object has no attribute 'get'"))
  | Some items =>
      let target_name :=
        match dict_lookup items "target" with
        | Some v => TKeep v
        | None => TDict []
        end in
      match dict_lookup items "outputs" with
      | Some outputs =>
          match as_dict h outputs with
          | Some entries => get_or_empty h entries target_name
          | None =>
              Failed (Exn (AttributeError "object has no attribute 'get'"))
          end
      | None => get_or_empty h [] target_name
      end
  end.

(** [{"target": "dev", "outputs": {"dev": {"type": "postgres"}}}], and
    the same project without its target *)
Definition profiles_config : heap :=
  {[ 0%nat := ODict [("target", VStr "dev"); ("outputs", VRef 1)];
     1%nat := ODict [("dev", VRef 2)];
     2%nat := ODict [("type", VStr "postgres")];
     3%nat := ODict [("outputs", VRef 1)] ]}.

(** ** [args_to_dict] *)

(** [str.lower] and [str.upper], on the ASCII names that arguments and
    flags have *)
Definition ascii_lower (c : Ascii.ascii) : Ascii.ascii :=
  let n := Ascii.nat_of_ascii c in
  if (65 <=? n)%nat && (n <=? 90)%nat then Ascii.ascii_of_nat (n + 32)
  else c.

Definition ascii_upper (c : Ascii.ascii) : Ascii.ascii :=
  let n := Ascii.nat_of_ascii c in
  if (97 <=? n)%nat && (n <=? 122)%nat then Ascii.ascii_of_nat (n - 32)
  else c.

Fixpoint str_map (f : Ascii.ascii → Ascii.ascii) (s : string) : string :=
  match s with
  | EmptyString => EmptyString
  | String c s' => String (f c) (str_map f s')
  end.

Definition lower : string → string := str_map ascii_lower.
Definition upper : string → string := str_map ascii_upper.

(** The values of arguments and flags, as far as the function tells
    them apart.  A path carries what [str] makes of it, the
    warn-error options carry what [to_dict] makes of them; [ADict] is
    such a dict. *)
Inductive arg : Type :=
| ANone
| ABool (b : bool)
| AStr (s : string)
| APath (shown : string)
| AWarnErrorOptions (as_dict : list (string * list string))
| ADict (items : list (string * list string))
| AOther (v : value).

Definition default_false_keys : list string :=
  ["debug"; "full_refresh"; "fail_fast"; "warn_error"; "single_threaded";
   "log_cache_events"; "store_failures"; "use_experimental_parser"].

Definition default_empty_yaml_dict_keys : list string :=
  ["vars"; "warn_error_options"].

(** [var_args.update(flag_dict)] *)
Definition dict_update {A} (d other : list (string * A))
  : list (string * A) :=
  foldl (fun d kv => dict_setitem d kv.1 kv.2) d other.

(** [var_args[key]]; the keys looked up are those the loop iterates
    over, so the default is never used. *)
Definition var_arg (var_args : list (string * arg)) (key : string) : arg :=
  default ANone (dict_lookup var_args key).

(** [value is None], [value is False], [value == "{}"], and the two
    conversions, each with its [isinstance] test *)
Definition is_None (value : arg) : bool :=
  match value with ANone => true | _ => false end.

Definition is_False (value : arg) : bool :=
  match value with ABool false => true | _ => false end.

Definition equals_str (value : arg) (s : string) : bool :=
  match value with AStr s' => bool_decide (s' = s) | _ => false end.

Definition path_str (value : arg) : option arg :=
  match value with APath shown => Some (AStr shown) | _ => None end.

Definition warn_error_options_to_dict (value : arg) : option arg :=
  match value with AWarnErrorOptions d => Some (ADict d) | _ => None end.

(** One turn of the loop, on [var_args] and [dict_args] *)
Definition args_to_dict_step
    (state : list (string * arg) * list (string * arg)) (key : string)
  : list (string * arg) * list (string * arg) :=
  let '(var_args, dict_args) := state in
  if dict_in var_args (lower key) && bool_decide (key = upper key)
  then state
  else if bool_decide (key ∈ ["cls"; "mp_context"]) then state
  else if is_None (var_arg var_args key) then state
  else if bool_decide (key ∈ default_false_keys)
          && is_False (var_arg var_args key) then state
  else if bool_decide (key ∈ default_empty_yaml_dict_keys)
          && equals_str (var_arg var_args key) "{}" then state
  else
    let var_args :=
      match path_str (var_arg var_args key) with
      | Some shown => dict_setitem var_args key shown
      | None => var_args
      end in
    let var_args :=
      match warn_error_options_to_dict (var_arg var_args key) with
      | Some d => dict_setitem var_args key d
      | None => var_args
      end in
    (var_args, dict_setitem dict_args key (var_arg var_args key)).

(** [args] are the items of [vars(args)], [flag_dict] those of
    [flags.get_flag_dict()]. *)
Definition args_to_dict (args flag_dict : list (string * arg))
  : list (string * arg) :=
  let var_args := dict_update args flag_dict in
  (foldl args_to_dict_step (var_args, []) var_args.*1).2.

(** What the loop does with one item, said at once: whether it leaves
    the item out, and what it stores the value as *)
Definition skipped (keys : list string) (key : string) (value : arg) : bool :=
  (bool_decide (lower key ∈ keys) && bool_decide (key = upper key))
  || bool_decide (key ∈ ["cls"; "mp_context"])
  || is_None value
  || (bool_decide (key ∈ default_false_keys) && is_False value)
  || (bool_decide (key ∈ default_empty_yaml_dict_keys)
      && equals_str value "{}").

Definition stored (value : arg) : arg :=
  match value with
  | APath shown => AStr shown
  | AWarnErrorOptions d => ADict d
  | _ => value
  end.

Definition kept_item (keys : list string) (kv : string * arg)
  : option (string * arg) :=
  if skipped keys kv.1 kv.2 then None else Some (kv.1, stored kv.2).

(** The arguments of a run, with the capitalised copy of one of them
    that the flags bring along *)
Definition run_args : list (string * arg) :=
  [("cls", AOther VNone); ("threads", AOther (VInt 4));
   ("profiles_dir", APath "/home/dbt"); ("debug", ABool false);
   ("vars", AStr "{}"); ("select", ANone)].

Definition run_flags : list (string * arg) :=
  [("threads", AOther (VInt 8)); ("THREADS", AOther (VInt 8));
   ("warn_error_options", AWarnErrorOptions [("include", ["all"])])].

(** ** [class memoized] *)

Module memoized.
Section memoized.
(** [Args] are the argument tuples and equality on them is Python's;
    [func] acts on a state of its own.  [isinstance_Hashable args] is
    the test [isinstance(args, collections.abc.Hashable)], and
    [hashes args] says whether hashing [args], which the dict does on
    every membership test, goes through. *)
Context {Args R St : Type} `{Countable Args}.
Variable isinstance_Hashable : Args → bool.
Variable hashes : Args → bool.
Variable func : Args → St → outcome R * St.

Record t := mk { cache : gmap Args R }.

Definition __init__ : t := mk ∅.

Definition __call__ (self : t) (args : Args) (s : St)
  : outcome R * t * St :=
  if negb (isinstance_Hashable args) then
    let '(r, s') := func args s in (r, self, s')
  else if negb (hashes args) then
    (Failed (TypeError "unhashable type"), self, s)
  else
    match cache self !! args with
    | Some value => (Done value, self, s)
    | None =>
        match func args s with
        | (Done value, s') => (Done value, mk (<[args := value]> (cache self)), s')
        | (Failed e, s') => (Failed e, self, s')
        end
    end.

(** A run of calls, one after the other, with what each came to *)
Fixpoint calls (self : t) (argss : list Args) (s : St)
  : list (outcome R) * t * St :=
  match argss with
  | [] => ([], self, s)
  | args :: rest =>
      let '(r, self', s') := __call__ self args s in
      let '(rs, self'', s'') := calls self' rest s' in
      (r :: rs, self'', s'')
  end.
End memoized.
Arguments t Args R {_ _}.
End memoized.

(** A function to memoize that is not pure: it returns the length of its
    argument plus the number of times it ran before.  The argument
    ["[]"] stands for one that passes the hashable test and cannot be
    hashed. *)
Definition length_plus_runs (args : string) (runs : nat)
  : outcome nat * nat :=
  (Done (String.length args + runs)%nat, S runs).

Definition hashes_but_list (args : string) : bool :=
  bool_decide (args ≠ "[]").

(** ** Properties of [MultiDict] *)

Section MultiDict_facts.
Context {V : Type}.
Implicit Types (entry : gmap string V) (name : string).

Lemma dict_contains_true entry name :
  MultiDict.dict_contains entry name = true ↔ is_Some (entry !! name).
Proof. unfold MultiDict.dict_contains. by rewrite bool_decide_eq_true. Qed.

Lemma dict_contains_false entry name :
  MultiDict.dict_contains entry name = false ↔ entry !! name = None.
Proof.
  unfold MultiDict.dict_contains.
  rewrite bool_decide_eq_false, eq_None_not_Some. done.
Qed.

(** The loop walks its argument front to back and stops at the first
    layer that has the key. *)
Lemma getitem_loop_hit (before after : list (gmap string V)) entry name v :
  Forall (fun e => e !! name = None) before →
  entry !! name = Some v →
  MultiDict.getitem_loop (before ++ entry :: after) name = Return v.
Proof.
  intros Hbefore Hv. induction Hbefore as [|e before He _ IH]; simpl.
  - assert (MultiDict.dict_contains entry name = true) as ->
      by (apply dict_contains_true; eauto).
    unfold MultiDict.dict_getitem. by rewrite Hv.
  - apply dict_contains_false in He. by rewrite He.
Qed.

Lemma getitem_loop_miss (entries : list (gmap string V)) name :
  Forall (fun e => e !! name = None) entries →
  MultiDict.getitem_loop entries name = Raise (KeyError name).
Proof.
  induction 1 as [|e entries He _ IH]; simpl; [done|].
  apply dict_contains_false in He. by rewrite He.
Qed.

Lemma contains_loop_hit (entries : list (gmap string V)) entry name :
  entry ∈ entries → is_Some (entry !! name) →
  existsb (fun e => MultiDict.dict_contains e name) entries = true.
Proof.
  intros Hin Hsome. apply existsb_exists. exists entry. split.
  - by apply list_elem_of_In.
  - by apply dict_contains_true.
Qed.

Lemma contains_loop_miss (entries : list (gmap string V)) name :
  Forall (fun e => e !! name = None) entries →
  existsb (fun e => MultiDict.dict_contains e name) entries = false.
Proof.
  induction 1 as [|e entries He _ IH]; simpl; [done|].
  apply dict_contains_false in He. by rewrite He.
Qed.

(** Splitting the layer list at position [i], as seen from the end. *)
Lemma itersource_split (self : MultiDict.t V) i entry :
  MultiDict.sources self !! i = Some entry →
  MultiDict._itersource self =
    reverse (drop (S i) (MultiDict.sources self)) ++
    entry :: reverse (take i (MultiDict.sources self)).
Proof.
  intros Hi. unfold MultiDict._itersource.
  rewrite <- (take_drop_middle _ _ _ Hi) at 1.
  rewrite reverse_app, reverse_cons, <- app_assoc. done.
Qed.

(** C3 — Override Mapping lookup is "last write wins": a key defined
    by the layer at position [i] and by no layer added after it is
    looked up to that layer's value, and the containment test holds;
    a key that no layer defines makes the lookup raise [KeyError] for
    that key, nothing else, and the containment test is false. *)
Theorem MultiDict_last_write_wins (self : MultiDict.t V) name :
  (∀ (i : nat) entry v,
      MultiDict.sources self !! i = Some entry →
      entry !! name = Some v →
      (∀ (j : nat) entry', (i < j)%nat →
         MultiDict.sources self !! j = Some entry' → entry' !! name = None) →
      MultiDict.__getitem__ self name = Return v
      ∧ MultiDict.__contains__ self name = true)
  ∧ ((∀ entry, entry ∈ MultiDict.sources self → entry !! name = None) →
     MultiDict.__getitem__ self name = Raise (KeyError name)
     ∧ MultiDict.__contains__ self name = false).
Proof.
  split.
  - intros i entry v Hi Hv Hlater.
    unfold MultiDict.__getitem__, MultiDict.__contains__.
    rewrite (itersource_split _ _ _ Hi). split.
    + apply getitem_loop_hit; [|done].
      apply Forall_reverse, Forall_lookup. intros k e Hk.
      rewrite lookup_drop in Hk. eapply Hlater; [|exact Hk]. lia.
    + eapply contains_loop_hit; [|by eauto].
      rewrite elem_of_app, elem_of_cons. auto.
  - intros Hnone.
    assert (Forall (fun e : gmap string V => e !! name = None)
              (MultiDict._itersource self)) as Hall.
    { unfold MultiDict._itersource. apply Forall_reverse, Forall_forall.
      exact Hnone. }
    split.
    + by apply getitem_loop_miss.
    + by apply contains_loop_miss.
Qed.

(** Adding a layer makes its keys win. *)
Lemma MultiDict_add_wins (self : MultiDict.t V) layer name v :
  layer !! name = Some v →
  MultiDict.__getitem__ (MultiDict.add self layer) name = Return v.
Proof.
  intros Hv. unfold MultiDict.__getitem__, MultiDict._itersource. simpl.
  rewrite reverse_app. simpl.
  by apply (getitem_loop_hit []).
Qed.

End MultiDict_facts.

(** The two layers [{"x": 1}, {"x": 2}]: ["x"] is looked up to [2], and
    ["y"], which neither defines, is absent. *)
Lemma MultiDict_last_write_wins_witness :
  let self := MultiDict.mk [ ({[ "x" := 1 ]} : gmap string Z); {[ "x" := 2 ]} ] in
  (MultiDict.__getitem__ self "x" = Return 2
   ∧ MultiDict.__contains__ self "x" = true)
  ∧ (MultiDict.__getitem__ self "y" = Raise (KeyError "y")
     ∧ MultiDict.__contains__ self "y" = false).
Proof.
  intros self. split.
  - apply (proj1 (MultiDict_last_write_wins self "x") 1%nat {[ "x" := 2 ]} 2).
    + reflexivity.
    + reflexivity.
    + intros [|[|j]] entry' Hj Hlook; [lia | lia | discriminate Hlook].
  - apply (proj2 (MultiDict_last_write_wins self "y")).
    intros entry Hin. simpl in Hin.
    apply elem_of_cons in Hin as [-> | Hin]; [reflexivity|].
    apply elem_of_cons in Hin as [-> | Hin]; [reflexivity|].
    by apply elem_of_nil in Hin.
Defined.

(** ** Properties of [fqn_search] *)

Section fqn_search_facts.
Variable h : heap.

(** The loop after the first [yield]: position [i] holds the level that
    the first [i + 1] segments lead to. *)
Lemma fqn_levels_spec (fqn : list string) : ∀ root : value,
  is_Some (as_dict h root) →
  (fqn_levels h root fqn).2 = None
  ∧ ∀ i : nat,
      (fqn_levels h root fqn).1 !! i =
        if decide (i < length fqn)%nat
        then level_at h root (take (S i) fqn) else None.
Proof.
  induction fqn as [|level rest IH]; intros root [items Hroot]; simpl.
  - split; [done|]. intros i. by rewrite lookup_nil.
  - unfold dict_get. rewrite Hroot. simpl.
    destruct (dict_lookup items level) as [config|] eqn:Hlevel; simpl.
    2: { split; [done|]. intros i. rewrite lookup_nil. by case_decide. }
    destruct (as_dict h config) as [inner|] eqn:Hconfig; simpl.
    2: { split; [done|]. intros i. rewrite lookup_nil. by case_decide. }
    destruct (IH config) as [Hend Hlook]; [by eauto|].
    destruct (fqn_levels h config rest) as [more e]. simpl in *.
    split; [done|]. intros [|i]; simpl.
    + done.
    + rewrite Hlook. repeat case_decide; try lia; done.
Qed.

(** C4 — on a root that is a mapping, the generator ends without an
    exception, and what it yields at position [i] is the level reached
    from the root by the first [i] segments of the path: the root
    itself at position 0, then each nested mapping in path order, and
    nothing from the first segment on that is absent or not a nested
    mapping. *)
Theorem fqn_search_yields_levels (root : value) (fqn : list string) :
  is_Some (as_dict h root) →
  (fqn_search h root fqn).2 = None
  ∧ ∀ i : nat,
      (fqn_search h root fqn).1 !! i =
        if decide (i ≤ length fqn)%nat
        then level_at h root (take i fqn) else None.
Proof.
  intros Hroot. destruct (fqn_levels_spec fqn root Hroot) as [Hend Hlook].
  unfold fqn_search. destruct (fqn_levels h root fqn) as [levels e].
  simpl in *. split; [done|]. intros [|i]; simpl.
  - done.
  - rewrite Hlook. repeat case_decide; try lia; done.
Qed.
End fqn_search_facts.

(** [fqn_search({"a": {"b": {"c": 1}}}, ["a", "b", "z"])] yields three
    levels and stops before ["z"]. *)
Lemma fqn_search_yields_levels_witness :
  let run := fqn_search nested_config (VRef 0) ["a"; "b"; "z"] in
  is_Some (as_dict nested_config (VRef 0))
  ∧ run.2 = None
  ∧ run.1 !! 0%nat = Some (VRef 0)
  ∧ run.1 !! 1%nat = Some (VRef 1)
  ∧ run.1 !! 2%nat = Some (VRef 2)
  ∧ run.1 !! 3%nat = None.
Proof.
  intros run.
  assert (is_Some (as_dict nested_config (VRef 0))) as Hroot
    by (vm_compute; eauto).
  destruct (fqn_search_yields_levels nested_config (VRef 0)
              ["a"; "b"; "z"] Hroot) as [Hend Hlook].
  split; [exact Hroot|]. split; [exact Hend|].
  unfold run. rewrite !Hlook. vm_compute. done.
Defined.

Example fqn_search_nested_config :
  fqn_search nested_config (VRef 0) ["a"; "b"; "z"]
  = ([VRef 0; VRef 1; VRef 2], None).
Proof. vm_compute. reflexivity. Qed.

(** ** Properties of [_connection_exception_retry] *)

Section Retry_facts.
Context {St R : Type}.
Implicit Types (fn : St → result R * St) (w : world St) (exc : exn).

(** The body of the function, as the source has it. *)
Lemma retry_unfold (stack : nat) fn (max_attempts attempt : Z) w :
  _connection_exception_retry stack fn max_attempts attempt w =
  match call fn w with
  | (Return r, w1) => (Return r, w1)
  | (Raise exc, w1) =>
      if is_transient exc then
        if decide (attempt ≤ max_attempts - 1)%Z then
          match stack with
          | O =>
              (Raise (BuiltinRecursionError "maximum recursion depth exceeded"),
               w1)
          | S stack' =>
              _connection_exception_retry stack' fn max_attempts (attempt + 1)
                (sleep 1
                   (fire_event (RetryExternalCall attempt max_attempts)
                      (fire_event (RecordRetryException (str exc)) w1)))
          end
        else
          (Raise (ConnectionError
                    ("External connection exception occurred: "
                     +:+ str exc)), w1)
      else (Raise exc, w1)
  end.
Proof. by destruct stack. Qed.
End Retry_facts.

Section Retry_counting.
Context {St R : Type}.
Implicit Types (fn : St → result R * St) (exc : exn).

Lemma counted_world_eq (s : St) (n n' : nat) ev (sl sl' : Z) :
  n = n' → sl = sl' → World (s, n) ev sl = World (s, n') ev sl'.
Proof. by intros -> ->. Qed.

(** One invocation of the counted action *)
Lemma call_counting fn (s : St) (n : nat) ev sl :
  call (counting fn) (World (s, n) ev sl)
  = ((fn s).1, World ((fn s).2, S n) ev sl).
Proof. unfold call, counting. simpl. by destruct (fn s). Qed.

(** The four ways an invocation can go *)
Lemma retry_returns stack fn max_attempts attempt (s : St) n ev sl r :
  (fn s).1 = Return r →
  _connection_exception_retry stack (counting fn) max_attempts attempt
    (World (s, n) ev sl)
  = (Return r, World ((fn s).2, S n) ev sl).
Proof.
  intros Hr. rewrite retry_unfold, call_counting, Hr. done.
Qed.

Lemma retry_again stack fn max_attempts attempt (s : St) n ev sl exc :
  (fn s).1 = Raise exc → is_transient exc = true →
  (attempt ≤ max_attempts - 1)%Z →
  _connection_exception_retry (S stack) (counting fn) max_attempts attempt
    (World (s, n) ev sl)
  = _connection_exception_retry stack (counting fn) max_attempts
      (attempt + 1)
      (World ((fn s).2, S n)
         (ev ++ retry_events attempt max_attempts exc) (sl + 1)).
Proof.
  intros Hexc Htr Hle. rewrite retry_unfold, call_counting, Hexc, Htr.
  rewrite decide_True by done.
  unfold sleep, fire_event, retry_events. simpl.
  by rewrite <- app_assoc.
Qed.

Lemma retry_out_of_stack fn max_attempts attempt (s : St) n ev sl exc :
  (fn s).1 = Raise exc → is_transient exc = true →
  (attempt ≤ max_attempts - 1)%Z →
  _connection_exception_retry 0 (counting fn) max_attempts attempt
    (World (s, n) ev sl)
  = (Raise (BuiltinRecursionError "maximum recursion depth exceeded"),
     World ((fn s).2, S n) ev sl).
Proof.
  intros Hexc Htr Hle. rewrite retry_unfold, call_counting, Hexc, Htr.
  by rewrite decide_True by done.
Qed.

Lemma retry_gives_up stack fn max_attempts attempt (s : St) n ev sl exc :
  (fn s).1 = Raise exc → is_transient exc = true →
  ¬ (attempt ≤ max_attempts - 1)%Z →
  _connection_exception_retry stack (counting fn) max_attempts attempt
    (World (s, n) ev sl)
  = (Raise (retry_message exc), World ((fn s).2, S n) ev sl).
Proof.
  intros Hexc Htr Hle. rewrite retry_unfold, call_counting, Hexc, Htr.
  by rewrite decide_False by done.
Qed.

(** C6 — an exception outside the caught classes leaves the wrapper
    at once, whatever the budget, the attempt index and the room on the
    stack: the action was invoked once, no retry event was fired, no
    second was slept, and the caller gets the very exception. *)
Theorem retry_propagates_other_failures (stack : nat) fn
    (max_attempts attempt : Z) (s : St) (n : nat) ev sl exc :
  (fn s).1 = Raise exc →
  is_transient exc = false →
  _connection_exception_retry stack (counting fn) max_attempts attempt
    (World (s, n) ev sl)
  = (Raise exc, World ((fn s).2, S n) ev sl).
Proof.
  intros Hexc Htr. rewrite retry_unfold, call_counting, Hexc, Htr. done.
Qed.

(** With [k] retries left the action is invoked at most [k + 1]
    times, whatever room the stack has. *)
Lemma retry_calls_bound fn max_attempts (stack : nat) :
  ∀ attempt (s : St) (n : nat) ev sl,
    ((external (_connection_exception_retry stack (counting fn) max_attempts
                  attempt (World (s, n) ev sl)).2).2
     ≤ n + S (Z.to_nat (max_attempts - attempt)))%nat.
Proof.
  induction stack as [|stack IH]; intros attempt s n ev sl;
    rewrite retry_unfold, call_counting;
    destruct (fn s).1 as [r|exc]; simpl; try lia;
    destruct (is_transient exc); simpl; try lia;
    case_decide; simpl; try lia.
  specialize (IH (attempt + 1)%Z (fn s).2 (S n)
                (ev ++ [RecordRetryException (str exc)] ++
                   [RetryExternalCall attempt max_attempts])
                (sl + 1)%Z).
  unfold sleep, fire_event. simpl. rewrite <- app_assoc.
  etrans; [apply IH|]; lia.
Qed.

(** An action that keeps failing with caught exceptions uses up the
    budget when the stack has room for it: [k] retries, [k + 1]
    invocations, and the last exception ends up in the terminal
    error. *)
Lemma retry_exhausts fn max_attempts (k : nat) :
  ∀ (stack : nat) attempt (s : St) (n : nat) ev sl,
    Z.to_nat (max_attempts - attempt) = k →
    (k ≤ stack)%nat →
    (∀ i : nat, ∃ exc, (fn (state_after fn i s)).1 = Raise exc
                       ∧ is_transient exc = true) →
    ∃ exc ev',
      (fn (state_after fn k s)).1 = Raise exc
      ∧ _connection_exception_retry stack (counting fn) max_attempts attempt
          (World (s, n) ev sl)
        = (Raise (retry_message exc),
           World (state_after fn (S k) s, (n + S k)%nat) ev'
             (sl + Z.of_nat k)).
Proof.
  induction k as [|k IH]; intros stack attempt s n ev sl Hk Hroom Hfail.
  - destruct (Hfail 0%nat) as (exc & Hexc & Htr). simpl in Hexc.
    exists exc, ev. split; [done|].
    rewrite (retry_gives_up _ _ _ _ _ _ _ _ exc) by (done || lia).
    simpl. f_equal. apply counted_world_eq; lia.
  - destruct stack as [|stack]; [lia|].
    destruct (Hfail 0%nat) as (exc & Hexc & Htr). simpl in Hexc.
    rewrite (retry_again _ _ _ _ _ _ _ _ exc) by (done || lia).
    destruct (IH stack (attempt + 1)%Z (fn s).2 (S n)
                (ev ++ retry_events attempt max_attempts exc) (sl + 1)%Z)
      as (exc' & ev' & Hlast & Hrun).
    { lia. }
    { lia. }
    { intros i. apply (Hfail (S i)). }
    exists exc', ev'. split; [exact Hlast|].
    rewrite Hrun. simpl. f_equal. apply counted_world_eq; lia.
Qed.

(** The same action with a budget the stack has no room for: the run
    ends when the stack does, in the interpreter's error. *)
Lemma retry_runs_out_of_stack fn max_attempts (stack : nat) :
  ∀ attempt (s : St) (n : nat) ev sl,
    (stack < Z.to_nat (max_attempts - attempt))%nat →
    (∀ i : nat, ∃ exc, (fn (state_after fn i s)).1 = Raise exc
                       ∧ is_transient exc = true) →
    ∃ ev',
      _connection_exception_retry stack (counting fn) max_attempts attempt
        (World (s, n) ev sl)
      = (Raise (BuiltinRecursionError "maximum recursion depth exceeded"),
         World (state_after fn (S stack) s, (n + S stack)%nat) ev'
           (sl + Z.of_nat stack)).
Proof.
  induction stack as [|stack IH]; intros attempt s n ev sl Hroom Hfail.
  - destruct (Hfail 0%nat) as (exc & Hexc & Htr). simpl in Hexc.
    exists ev.
    rewrite (retry_out_of_stack _ _ _ _ _ _ _ exc) by (done || lia).
    simpl. f_equal. apply counted_world_eq; lia.
  - destruct (Hfail 0%nat) as (exc & Hexc & Htr). simpl in Hexc.
    rewrite (retry_again _ _ _ _ _ _ _ _ exc) by (done || lia).
    destruct (IH (attempt + 1)%Z (fn s).2 (S n)
                (ev ++ retry_events attempt max_attempts exc) (sl + 1)%Z)
      as (ev' & Hrun).
    { lia. }
    { intros i. apply (Hfail (S i)). }
    exists ev'. rewrite Hrun. simpl. f_equal. apply counted_world_eq; lia.
Qed.

(** C7 — with a budget of [max_attempts >= 0] retries, started at
    attempt 0, the wrapper invokes the action at most
    [max_attempts + 1] times, whatever the action does and whatever room
    the stack has (the function is total: it recurses once per retry).
    When every invocation fails with a caught exception, the outcome
    depends on the stack.  With room for [max_attempts] retries the
    action is invoked exactly [max_attempts + 1] times, one second is
    slept per retry, and the terminal connection error built from the
    exception of the last invocation is raised.  With room for fewer,
    the run ends after [stack + 1] invocations and [stack] seconds in
    the interpreter's stack-exhaustion error, which is not wrapped. *)
Theorem retry_is_bounded (stack : nat) fn (max_attempts : Z) (s : St)
    (n : nat) ev sl :
  (0 ≤ max_attempts)%Z →
  let run :=
    _connection_exception_retry stack (counting fn) max_attempts 0
      (World (s, n) ev sl) in
  (Z.of_nat (external run.2).2 ≤ Z.of_nat n + (max_attempts + 1))%Z
  ∧ ((∀ i : nat, ∃ exc, (fn (state_after fn i s)).1 = Raise exc
                        ∧ is_transient exc = true) →
     ((max_attempts ≤ Z.of_nat stack)%Z →
      ∃ exc,
        (fn (state_after fn (Z.to_nat max_attempts) s)).1 = Raise exc
        ∧ run.1 = Raise (retry_message exc)
        ∧ Z.of_nat (external run.2).2 = (Z.of_nat n + (max_attempts + 1))%Z
        ∧ slept run.2 = (sl + max_attempts)%Z)
     ∧ ((Z.of_nat stack < max_attempts)%Z →
        run.1 = Raise (BuiltinRecursionError "maximum recursion depth exceeded")
        ∧ (external run.2).2 = (n + (stack + 1))%nat
        ∧ slept run.2 = (sl + Z.of_nat stack)%Z)).
Proof.
  intros Hmax run. split.
  - pose proof (retry_calls_bound fn max_attempts stack 0 s n ev sl) as Hb.
    unfold run. rewrite Z.sub_0_r in Hb. lia.
  - intros Hfail. split.
    + intros Hroom.
      destruct (retry_exhausts fn max_attempts (Z.to_nat max_attempts)
                  stack 0 s n ev sl) as (exc & ev' & Hlast & Hrun);
        [by rewrite Z.sub_0_r | lia | exact Hfail |].
      exists exc. unfold run. rewrite Hrun. simpl.
      split; [exact Hlast|]. split; [done|]. split; lia.
    + intros Hroom.
      destruct (retry_runs_out_of_stack fn max_attempts stack 0 s n ev sl)
        as (ev' & Hrun); [rewrite Z.sub_0_r; lia | exact Hfail |].
      unfold run. rewrite Hrun. simpl. split; [done|]. split; lia.
Qed.

(** C1 — with [max_attempts = 3], on a stack with room for the three
    retries: two caught failures and then a success give the success
    after exactly two retries (two retry events, two seconds slept) and
    three invocations; four caught failures in a row give the terminal
    connection error after exactly three retries and four
    invocations. *)
Theorem retry_with_three_attempts (stack : nat) fn (s : St) (n : nat)
    ev sl :
  (3 ≤ stack)%nat →
  let run :=
    _connection_exception_retry stack (counting fn) 3 0
      (World (s, n) ev sl) in
  (∀ e1 e2 r,
      (fn s).1 = Raise e1 → is_transient e1 = true →
      (fn (state_after fn 1 s)).1 = Raise e2 → is_transient e2 = true →
      (fn (state_after fn 2 s)).1 = Return r →
      run = (Return r,
             World (state_after fn 3 s, (n + 3)%nat)
               (ev ++ retry_events 0 3 e1 ++ retry_events 1 3 e2)
               (sl + 2)))
  ∧ (∀ e1 e2 e3 e4,
      (fn s).1 = Raise e1 → is_transient e1 = true →
      (fn (state_after fn 1 s)).1 = Raise e2 → is_transient e2 = true →
      (fn (state_after fn 2 s)).1 = Raise e3 → is_transient e3 = true →
      (fn (state_after fn 3 s)).1 = Raise e4 → is_transient e4 = true →
      run = (Raise (retry_message e4),
             World (state_after fn 4 s, (n + 4)%nat)
               (ev ++ retry_events 0 3 e1 ++ retry_events 1 3 e2
                   ++ retry_events 2 3 e3)
               (sl + 3))).
Proof.
  intros Hroom run. unfold run.
  destruct stack as [|[|[|stack]]]; [lia..|]. split.
  - intros e1 e2 r H1 T1 H2 T2 H3.
    rewrite (retry_again _ _ _ _ _ _ _ _ e1) by (done || lia).
    rewrite (retry_again _ _ _ _ _ _ _ _ e2) by (done || lia).
    rewrite (retry_returns _ _ _ _ _ _ _ _ r) by done.
    f_equal. rewrite <- !app_assoc. simpl.
    apply counted_world_eq; lia.
  - intros e1 e2 e3 e4 H1 T1 H2 T2 H3 T3 H4 T4.
    rewrite (retry_again _ _ _ _ _ _ _ _ e1) by (done || lia).
    rewrite (retry_again _ _ _ _ _ _ _ _ e2) by (done || lia).
    rewrite (retry_again _ _ _ _ _ _ _ _ e3) by (done || lia).
    rewrite (retry_gives_up _ _ _ _ _ _ _ _ e4) by (done || lia).
    f_equal. rewrite <- !app_assoc. simpl.
    apply counted_world_eq; lia.
Qed.

End Retry_counting.

(** An uncaught exception on the first invocation, with five retries in
    hand: one invocation, nothing fired, nothing slept. *)
Lemma retry_propagates_other_failures_witness :
  _connection_exception_retry 1000 (counting misconfigured) 5 0
    (World (0%nat, 0%nat) [] 0)
  = (Raise (Exception "no such registry"), World (1%nat, 1%nat) [] 0).
Proof.
  apply (retry_propagates_other_failures 1000 misconfigured 5 0 0%nat 0%nat
           [] 0 (Exception "no such registry")); reflexivity.
Defined.

(** A call that never answers, with three retries.  On a stack with
    room for them: four invocations, three seconds slept, and the
    terminal error.  On a stack with room for two: three invocations,
    two seconds slept, and the interpreter's error. *)
Lemma retry_is_bounded_witness :
  (let run :=
     _connection_exception_retry 1000 (counting always_down) 3 0
       (World (0%nat, 0%nat) [] 0) in
   (Z.of_nat (external run.2).2 ≤ 4)%Z
   ∧ ∃ exc,
       (always_down 3%nat).1 = Raise exc
       ∧ run.1 = Raise (retry_message exc)
       ∧ Z.of_nat (external run.2).2 = 4%Z
       ∧ slept run.2 = 3%Z)
  ∧ (let run :=
       _connection_exception_retry 2 (counting always_down) 3 0
         (World (0%nat, 0%nat) [] 0) in
     run.1 = Raise (BuiltinRecursionError "maximum recursion depth exceeded")
     ∧ (external run.2).2 = 3%nat
     ∧ slept run.2 = 2%Z).
Proof.
  split.
  - destruct (retry_is_bounded 1000 always_down 3 0%nat 0%nat [] 0
                ltac:(lia)) as [Hbound Hfail].
    split; [exact Hbound|].
    apply Hfail; [|lia]. intros i. eexists. split; reflexivity.
  - destruct (retry_is_bounded 2 always_down 3 0%nat 0%nat [] 0
                ltac:(lia)) as [_ Hfail].
    apply Hfail; [|lia]. intros i. eexists. split; reflexivity.
Defined.

(** The claim without the proviso on the stack fails: a call that never
    answers, a budget of 5000 retries and a stack with room for 989 of
    them end after 990 invocations in the interpreter's error, not in
    the terminal connection error. *)
Lemma retry_ends_in_stack_exhaustion :
  let run :=
    _connection_exception_retry 989 (counting always_down) 5000 0
      (World (0%nat, 0%nat) [] 0) in
  run.1 = Raise (BuiltinRecursionError "maximum recursion depth exceeded")
  ∧ (external run.2).2 = 990%nat
  ∧ (∀ exc, run.1 ≠ Raise (retry_message exc)).
Proof.
  cbv zeta.
  assert ((_connection_exception_retry 989 (counting always_down) 5000 0
             (World (0%nat, 0%nat) [] 0)).1
          = Raise (BuiltinRecursionError "maximum recursion depth exceeded"))
    as Hrun by (vm_compute; reflexivity).
  split; [exact Hrun|]. split; [vm_compute; reflexivity|].
  intros exc. rewrite Hrun. discriminate.
Qed.

(** The two scenarios of C1 on [flaky_twice] and [always_down]. *)
Lemma retry_with_three_attempts_witness :
  _connection_exception_retry 1000 (counting flaky_twice) 3 0
    (World (0%nat, 0%nat) [] 0)
  = (Return "payload",
     World (3%nat, 3%nat)
       [RecordRetryException "connection reset"; RetryExternalCall 0 3;
        RecordRetryException "connection reset"; RetryExternalCall 1 3] 2)
  ∧ _connection_exception_retry 1000 (counting always_down) 3 0
      (World (0%nat, 0%nat) [] 0)
    = (Raise (ConnectionError
                "External connection exception occurred: unexpected end of data"),
       World (4%nat, 4%nat)
         [RecordRetryException "unexpected end of data"; RetryExternalCall 0 3;
          RecordRetryException "unexpected end of data"; RetryExternalCall 1 3;
          RecordRetryException "unexpected end of data"; RetryExternalCall 2 3]
         3).
Proof.
  split.
  - apply (proj1 (retry_with_three_attempts 1000 flaky_twice 0%nat 0%nat
                    [] 0 ltac:(lia))
             (RequestException "connection reset")
             (RequestException "connection reset") "payload");
      reflexivity.
  - apply (proj2 (retry_with_three_attempts 1000 always_down 0%nat 0%nat
                    [] 0 ltac:(lia))
             (ReadError "unexpected end of data")
             (ReadError "unexpected end of data")
             (ReadError "unexpected end of data")
             (ReadError "unexpected end of data"));
      reflexivity.
Defined.

(** ** Properties of the tasks *)

(** C9 — the run task asks the node selector for its graph queue with
    edge preservation on, the clone task with edge preservation off. *)
Theorem tasks_request_edge_preservation {Spec Queue : Type}
    (node_selector : Spec → bool → Queue) (spec : Spec) :
  Task.get_graph_queue Task.Run node_selector spec = node_selector spec true
  ∧ Task.get_graph_queue Task.Clone node_selector spec
    = node_selector spec false.
Proof. split; reflexivity. Qed.

(** C2 — when the run loop raises [exc]: if [exc] is a keyboard
    interrupt or a system exit, [execute_nodes] tells the adapter to
    cancel its connections exactly once and raises [exc] again; for any
    other exception it makes no such call, and [exc] still reaches the
    caller. *)
Theorem execute_nodes_cancels_on_interrupt {A : Type}
    (run_queue : Task.adapter → result A * Task.adapter)
    (a a' : Task.adapter) (exc : exn) :
  run_queue a = (Raise exc, a') →
  (Task.is_interrupt exc = true →
   (Task.execute_nodes run_queue a).1 = Raise exc
   ∧ Task.cancel_calls (Task.execute_nodes run_queue a).2
     = S (Task.cancel_calls a'))
  ∧ (Task.is_interrupt exc = false →
     (Task.execute_nodes run_queue a).1 = Raise exc
     ∧ Task.cancel_calls (Task.execute_nodes run_queue a).2
       = Task.cancel_calls a').
Proof.
  intros Hrun. unfold Task.execute_nodes. rewrite Hrun.
  split; intros ->; done.
Qed.

(** The three run loops of the unit test: each raises at once, without
    touching the adapter. *)
Lemma execute_nodes_cancels_on_interrupt_witness :
  let fresh := Task.Adapter 0 in
  let raising (exc : exn) (a : Task.adapter) : result unit * Task.adapter :=
    (Raise exc, a) in
  let run exc := Task.execute_nodes (raising exc) fresh in
  ((run (SystemExit "Test exception")).1 = Raise (SystemExit "Test exception")
   ∧ Task.cancel_calls (run (SystemExit "Test exception")).2 = 1%nat)
  ∧ ((run (KeyboardInterrupt "Test exception")).1
     = Raise (KeyboardInterrupt "Test exception")
     ∧ Task.cancel_calls (run (KeyboardInterrupt "Test exception")).2 = 1%nat)
  ∧ ((run (Exception "Test exception")).1 = Raise (Exception "Test exception")
     ∧ Task.cancel_calls (run (Exception "Test exception")).2 = 0%nat).
Proof.
  intros fresh raising run. split; [|split].
  - apply (proj1 (execute_nodes_cancels_on_interrupt
                    (raising (SystemExit "Test exception")) fresh fresh
                    (SystemExit "Test exception") eq_refl)).
    reflexivity.
  - apply (proj1 (execute_nodes_cancels_on_interrupt
                    (raising (KeyboardInterrupt "Test exception")) fresh fresh
                    (KeyboardInterrupt "Test exception") eq_refl)).
    reflexivity.
  - apply (proj2 (execute_nodes_cancels_on_interrupt
                    (raising (Exception "Test exception")) fresh fresh
                    (Exception "Test exception") eq_refl)).
    reflexivity.
Defined.

(** ** Properties of [Translator] *)

Section dict_facts.
Context {A : Type}.
Implicit Types (items : list (string * A)) (key : string).

Lemma dict_in_true items key : dict_in items key = true ↔ key ∈ items.*1.
Proof. unfold dict_in. by rewrite bool_decide_eq_true. Qed.

Lemma dict_in_false items key : dict_in items key = false ↔ key ∉ items.*1.
Proof. unfold dict_in. by rewrite bool_decide_eq_false. Qed.

(** Storing under a key the dict does not have appends an item. *)
Lemma dict_setitem_fresh items key (v : A) :
  key ∉ items.*1 → dict_setitem items key v = items ++ [(key, v)].
Proof.
  induction items as [|[k w] items IH]; simpl; [done|].
  intros Hfresh. apply not_elem_of_cons in Hfresh as [Hne Hfresh].
  rewrite decide_False by done. by rewrite IH.
Qed.
End dict_facts.

Section translate_loops.
Variable self : Translator.
Variable tv : value → result tvalue.
Variable whole : list (string * value).

Local Abbreviation canon := (canonical (aliases self)).

(** The loop of [translate_mapping], when it runs to its end: every
    value was translated, every canonical key was new, and the items
    were appended in order. *)
Lemma translate_items_Return (kwargs : list (string * value)) :
  ∀ acc result,
    translate_items self tv whole kwargs acc = Return result →
    ∃ titems,
      result = acc ++ titems
      ∧ Forall2 (fun kv kt => kt.1 = canon kv.1 ∧ tv kv.2 = Return kt.2)
          kwargs titems
      ∧ NoDup (canon <$> kwargs.*1)
      ∧ ∀ k, k ∈ kwargs.*1 → canon k ∉ acc.*1.
Proof.
  induction kwargs as [|[k v] rest IH]; intros acc result Hrun; simpl in *.
  - exists []. rewrite app_nil_r. inversion Hrun.
    repeat split; [constructor | constructor | by intros ? ?%elem_of_nil].
  - destruct (dict_in acc (canon k)) eqn:Hin; [done|].
    apply dict_in_false in Hin.
    destruct (tv v) as [t|e] eqn:Hv; simpl in Hrun; [|done].
    rewrite dict_setitem_fresh in Hrun by done.
    destruct (IH _ _ Hrun) as (titems & -> & Hall & Hnodup & Hfresh).
    exists ((canon k, t) :: titems). rewrite <- app_assoc. simpl.
    split; [done|]. split; [by constructor|]. split.
    + constructor; [|done]. intros Hdup.
      apply list_elem_of_fmap in Hdup as (k' & Heq & Hk').
      apply (Hfresh k' Hk'). rewrite fmap_app, elem_of_app. right.
      simpl. rewrite <- Heq. apply list_elem_of_here.
    + intros k' [->|Hk']%elem_of_cons; [done|].
      intros Hacc. apply (Hfresh k' Hk').
      rewrite fmap_app, elem_of_app. by left.
Qed.

(** The loop of [translate_mapping], when it raises: a value failed to
    translate, or the exception is the duplicate-key error. *)
Lemma translate_items_Raise_kind (kwargs : list (string * value)) :
  ∀ acc e,
    translate_items self tv whole kwargs acc = Raise e →
    (∃ ck, e = DuplicateAliasError whole (aliases self) ck)
    ∨ (∃ v, v ∈ kwargs.*2 ∧ tv v = Raise e).
Proof.
  induction kwargs as [|[k v] rest IH]; intros acc e Hrun; simpl in *;
    [done|].
  destruct (dict_in acc (canon k)); [left; inversion Hrun; eauto|].
  destruct (tv v) as [t|e'] eqn:Hv; simpl in Hrun.
  - destruct (IH _ _ Hrun) as [?|(v' & ? & ?)]; [by left|].
    right. exists v'. split; [by apply list_elem_of_further|done].
  - inversion Hrun; subst. right. exists v.
    split; [apply list_elem_of_here|done].
Qed.

(** The duplicate-key error of the loop itself comes from two keys of
    the dict with one canonical key, and carries the dict. *)
Lemma translate_items_Raise (kwargs : list (string * value)) :
  NoDup kwargs.*1 →
  ∀ acc e,
    translate_items self tv whole kwargs acc = Raise e →
    (∃ k, k ∈ kwargs.*1 ∧ canon k ∈ acc.*1)
    ∨ (collide (aliases self) kwargs
       ∧ ∃ ck, e = DuplicateAliasError whole (aliases self) ck)
    ∨ (∃ v, v ∈ kwargs.*2 ∧ tv v = Raise e).
Proof.
  induction kwargs as [|[k v] rest IH]; intros Hnodup acc e Hrun;
    simpl in *; [done|].
  apply NoDup_cons in Hnodup as [Hk Hnodup].
  destruct (dict_in acc (canon k)) eqn:Hin.
  { left. exists k. split; [apply list_elem_of_here|].
    by apply dict_in_true. }
  apply dict_in_false in Hin.
  destruct (tv v) as [t|e'] eqn:Hv; simpl in Hrun.
  2: { inversion Hrun; subst. right; right. exists v.
       split; [apply list_elem_of_here|done]. }
  rewrite dict_setitem_fresh in Hrun by done.
  pose proof Hrun as Hkind. apply translate_items_Raise_kind in Hkind.
  destruct (IH Hnodup _ _ Hrun)
    as [(k' & Hk' & Hacc)|[[Hcol Hdup]|(v' & ? & ?)]].
  - rewrite fmap_app, elem_of_app in Hacc. destruct Hacc as [Hacc|Hacc].
    + left. exists k'. split; [by apply list_elem_of_further|done].
    + simpl in Hacc. apply list_elem_of_singleton in Hacc.
      destruct Hkind as [Hdup|(v' & ? & ?)].
      * right; left. split; [|done].
        exists k, k'. split; [by intros ->|].
        split; [apply list_elem_of_here|].
        split; [by apply list_elem_of_further|done].
      * right; right. exists v'.
        split; [by apply list_elem_of_further|done].
  - right; left. split; [|done]. destruct Hcol as (k1 & k2 & ? & ? & ? & ?).
    exists k1, k2. repeat split; try done; by apply list_elem_of_further.
  - right; right. exists v'. split; [by apply list_elem_of_further|done].
Qed.


Lemma translate_elems_Raise (elems : list value) e :
  translate_elems tv elems = Raise e → ∃ v, v ∈ elems ∧ tv v = Raise e.
Proof.
  induction elems as [|v rest IH]; intros Hrun; simpl in *; [done|].
  destruct (tv v) as [t|e'] eqn:Hv; simpl in Hrun.
  - destruct (translate_elems tv rest) as [ts'|e']; simpl in Hrun; [done|].
    inversion Hrun; subst. destruct IH as (v' & ? & ?); [done|].
    exists v'. split; [by apply list_elem_of_further|done].
  - inversion Hrun; subst. exists v. split; [apply list_elem_of_here|done].
Qed.
End translate_loops.


Lemma as_dict_wf (h : heap) v items :
  heap_wf h → as_dict h v = Some items → NoDup items.*1.
Proof.
  intros Hwf. destruct v as [| | | |l]; simpl; try done.
  destruct (h !! l) as [[]|] eqn:Hl; try done.
  intros [= <-]. exact (Hwf _ _ Hl).
Qed.

Lemma NoDup_canonical_not_collide aliases (items : list (string * value)) :
  NoDup (canonical aliases <$> items.*1) → ¬ collide aliases items.
Proof.
  intros Hnodup (k1 & k2 & Hne & H1 & H2 & Heq).
  induction (items.*1) as [|k keys IH]; [by apply elem_of_nil in H1|].
  simpl in Hnodup. apply NoDup_cons in Hnodup as [Hk Hnodup].
  apply elem_of_cons in H1 as [->|H1], H2 as [->|H2]; try done.
  - apply Hk. rewrite Heq. by apply list_elem_of_fmap_2.
  - apply Hk. rewrite <- Heq. by apply list_elem_of_fmap_2.
  - by apply IH.
Qed.

Section translate_mapping_via_facts.
Variable self : Translator.
Variable tv : value → result tvalue.

Lemma translate_mapping_via_Return kwargs t :
  translate_mapping_via self tv kwargs = Return t →
  ∃ titems, t = TDict titems
            ∧ translate_items self tv kwargs kwargs [] = Return titems.
Proof.
  unfold translate_mapping_via.
  destruct (translate_items self tv kwargs kwargs []); simpl; [|done].
  intros [= <-]. eauto.
Qed.

Lemma translate_mapping_via_Raise kwargs e :
  translate_mapping_via self tv kwargs = Raise e →
  translate_items self tv kwargs kwargs [] = Raise e.
Proof.
  unfold translate_mapping_via.
  destruct (translate_items self tv kwargs kwargs []); simpl; [done|].
  by intros [= <-].
Qed.


Lemma translate_sequence_via_Raise elems e :
  translate_sequence_via tv elems = Raise e →
  translate_elems tv elems = Raise e.
Proof.
  unfold translate_sequence_via.
  destruct (translate_elems tv elems); simpl; [done|].
  by intros [= <-].
Qed.
End translate_mapping_via_facts.

Section translate_value_facts.
Variable h : heap.
Variable note : string.
Variable self : Translator.

Local Abbreviation tv := (translate_value h note self).

(** Without the recursive flag every value is kept. *)
Lemma translate_value_flat depth v :
  recursive self = false → tv depth v = Return (TKeep v).
Proof. intros Hrec. destruct depth; simpl; by rewrite Hrec. Qed.

(** The only exceptions are stack exhaustion and the duplicate-key
    error. *)
Lemma translate_value_Raise_kind depth : ∀ v e,
  tv depth v = Raise e →
  e = stack_exhausted note
  ∨ ∃ items ck, e = DuplicateAliasError items (aliases self) ck.
Proof.
  induction depth as [|d IH]; intros v e Hrun; simpl in Hrun;
    destruct (recursive self); try done.
  - destruct (as_dict h v); [|destruct (as_sequence h v); [|done]];
      injection Hrun as <-; by left.
  - destruct (as_dict h v) as [items|];
      [|destruct (as_sequence h v) as [elems|]; [|done]].
    + apply translate_mapping_via_Raise in Hrun.
      apply translate_items_Raise_kind in Hrun as [[ck ->]|(v' & _ & Hv')];
        [right; eauto | by eapply IH].
    + apply translate_sequence_via_Raise in Hrun.
      apply translate_elems_Raise in Hrun as (v' & _ & Hv'). by eapply IH.
Qed.


Section recursive_mode.
Hypothesis Hrec : recursive self = true.




(** The duplicate-key error carries a level with clashing keys. *)
Lemma translate_value_duplicate depth : ∀ v items al ck,
  heap_wf h →
  tv depth v = Raise (DuplicateAliasError items al ck) →
  ∃ v', rtc (child h) v v' ∧ as_dict h v' = Some items
        ∧ collide (aliases self) items.
Proof.
  induction depth as [|d IH]; intros v items al ck Hwf Hrun; simpl in Hrun;
    rewrite Hrec in Hrun;
    (destruct (as_dict h v) as [items0|] eqn:Hd;
     [|destruct (as_sequence h v) as [elems|] eqn:Hs; [|done]]);
    try done.
  - apply translate_mapping_via_Raise in Hrun.
    apply translate_items_Raise in Hrun
        as [(k & _ & Hk)|[[Hcol [ck' Heq]]|(v1 & Hin & Hv1)]];
      [by apply elem_of_nil in Hk | | | by eapply as_dict_wf].
    + injection Heq as -> _ _. exists v. by split; [apply rtc_refl|].
    + destruct (IH _ _ _ _ Hwf Hv1) as (v' & Hreach & ? & ?).
      exists v'. split; [|done].
      eapply rtc_l; [|exact Hreach]. left. eauto.
  - apply translate_sequence_via_Raise in Hrun.
    apply translate_elems_Raise in Hrun as (v1 & Hin & Hv1).
    destruct (IH _ _ _ _ Hwf Hv1) as (v' & Hreach & ? & ?).
    exists v'. split; [|done].
    eapply rtc_l; [|exact Hreach]. right. eauto.
Qed.

End recursive_mode.
End translate_value_facts.

(** ** Properties of [translate] and [translate_aliases] *)

Lemma prefix_append (s t : string) : String.prefix s (s +:+ t) = true.
Proof.
  induction s as [|a s IH]; simpl; [by destruct t|].
  destruct (Ascii.ascii_dec a a); [exact IH | done].
Qed.

Lemma str_in_append (s t : string) : str_in s (s +:+ t) = true.
Proof.
  pose proof (prefix_append s t) as Hprefix.
  destruct (s +:+ t); cbn [str_in]; by rewrite Hprefix.
Qed.

(** Substrings of a text put together from parts: a word does not
    reach across a character it does not have. *)
Section substring_facts.
Variable p : string.
Hypothesis Hp : p ≠ "".




End substring_facts.





Local Abbreviation blank := (Ascii.ascii_of_nat 32).
Local Abbreviation comma := (Ascii.ascii_of_nat 44).







Section translate_facts.
Variable h : heap.
Variable note : string.
Variable self : Translator.

(** The [except RuntimeError] clause: stack exhaustion becomes the
    cycle error, and so does a duplicate-key error whose [str] has the
    words of the interpreter in it; any other duplicate-key error
    passes. *)
Lemma translate_of_stack_exhausted depth kwargs :
  translate_mapping h note self depth kwargs = Raise (stack_exhausted note) →
  translate h note self depth kwargs = Raise cycle_detected.
Proof.
  intros Hrun. unfold translate. rewrite Hrun. unfold stack_exhausted.
  cbn [isinstance_RuntimeError str]. by rewrite str_in_append.
Qed.

Lemma translate_of_duplicate depth kwargs items al ck :
  translate_mapping h note self depth kwargs
  = Raise (DuplicateAliasError items al ck) →
  translate h note self depth kwargs
  = if mentions_recursion_depth (DuplicateAliasError items al ck)
    then Raise cycle_detected
    else Raise (DuplicateAliasError items al ck).
Proof. intros Hrun. unfold translate. by rewrite Hrun. Qed.

Lemma translate_of_Return depth kwargs t :
  translate_mapping h note self depth kwargs = Return t →
  translate h note self depth kwargs = Return t.
Proof. intros Hrun. unfold translate. by rewrite Hrun. Qed.

Lemma translate_mapping_Raise_kind depth kwargs e :
  translate_mapping h note self depth kwargs = Raise e →
  e = stack_exhausted note
  ∨ ∃ items ck, e = DuplicateAliasError items (aliases self) ck.
Proof.
  intros Hrun%translate_mapping_via_Raise.
  apply translate_items_Raise_kind in Hrun as [[ck ->]|(v & _ & Hv)];
    [right; eauto|].
  by eapply translate_value_Raise_kind.
Qed.

(** The ways [translate] can end, each traced to how
    [translate_mapping] ended. *)
Lemma translate_outcome depth kwargs :
  (∃ titems,
      translate_items self (translate_value h note self depth) kwargs kwargs []
      = Return titems
      ∧ translate h note self depth kwargs = Return (TDict titems))
  ∨ (translate_mapping h note self depth kwargs
     = Raise (stack_exhausted note)
     ∧ translate h note self depth kwargs = Raise cycle_detected)
  ∨ (∃ items ck,
        let exc := DuplicateAliasError items (aliases self) ck in
        translate_mapping h note self depth kwargs = Raise exc
        ∧ translate h note self depth kwargs
          = if mentions_recursion_depth exc then Raise cycle_detected
            else Raise exc).
Proof.
  destruct (translate_mapping h note self depth kwargs) as [t|e] eqn:Hrun.
  - left. pose proof Hrun as Hrun'.
    apply translate_mapping_via_Return in Hrun' as (titems & -> & Hitems).
    exists titems. split; [done|]. by apply translate_of_Return.
  - right.
    destruct (translate_mapping_Raise_kind _ _ _ Hrun)
      as [->|(items & ck & ->)].
    + left. split; [done|]. by apply translate_of_stack_exhausted.
    + right. exists items, ck. split; [done|]. by apply translate_of_duplicate.
Qed.

(** The cycle error has two sources: the interpreter ran out of stack
    inside [translate_mapping], or [translate_mapping] raised a
    duplicate-key error that reads like it. *)
Lemma translate_cycle_iff depth kwargs :
  translate h note self depth kwargs = Raise cycle_detected
  ↔ translate_mapping h note self depth kwargs
    = Raise (stack_exhausted note)
    ∨ ∃ items ck,
        translate_mapping h note self depth kwargs
        = Raise (DuplicateAliasError items (aliases self) ck)
        ∧ mentions_recursion_depth
            (DuplicateAliasError items (aliases self) ck) = true.
Proof.
  split.
  - destruct (translate_outcome depth kwargs)
      as [(? & _ & ->)|[[? _]|(items & ck & Hdup & ->)]];
      [done | by left |].
    destruct (mentions_recursion_depth _) eqn:Hm; [|done].
    intros _. right. eauto.
  - intros [Hrun|(items & ck & Hrun & Hm)].
    + by apply translate_of_stack_exhausted.
    + by rewrite (translate_of_duplicate _ _ _ _ _ Hrun), Hm.
Qed.

Lemma translate_not_cycle_stack depth kwargs :
  translate h note self depth kwargs ≠ Raise cycle_detected →
  translate_mapping h note self depth kwargs ≠ Raise (stack_exhausted note).
Proof. intros Hne Hrun. apply Hne, translate_cycle_iff. by left. Qed.

End translate_facts.

Section flat_mode.
Variable h : heap.
Variable note : string.
Variable self : Translator.
Hypothesis Hflat : recursive self = false.

Local Abbreviation canon := (canonical (aliases self)).

(** Without the recursive flag the loop can only fail on a key. *)
Lemma translate_items_flat_Raise depth whole kwargs acc e :
  translate_items self (translate_value h note self depth) whole kwargs acc
  = Raise e →
  ∃ ck, e = DuplicateAliasError whole (aliases self) ck.
Proof.
  intros [?|(v & _ & Hv)]%translate_items_Raise_kind; [done|].
  by rewrite translate_value_flat in Hv.
Qed.

Lemma translate_items_flat_Return depth kwargs titems :
  translate_items self (translate_value h note self depth) kwargs kwargs []
  = Return titems →
  titems = prod_map canon TKeep <$> kwargs.
Proof.
  intros (? & -> & Hall & _)%translate_items_Return. simpl.
  induction Hall as [|[k v] [k' t] kwargs' titems [Hk Hv] _ IH]; [done|].
  simpl in *. rewrite translate_value_flat in Hv by done.
  injection Hv as <-. by rewrite Hk, IH.
Qed.

Lemma translate_items_flat_complete depth kwargs :
  NoDup (canon <$> kwargs.*1) →
  ∃ titems,
    translate_items self (translate_value h note self depth) kwargs kwargs []
    = Return titems.
Proof.
  intros Hnodup.
  destruct (translate_items self (translate_value h note self depth)
              kwargs kwargs []) as [titems|e] eqn:Hrun; [by eauto|].
  exfalso.
  apply translate_items_Raise in Hrun
      as [(k & _ & Hk)|[[Hcol _]|(v & _ & Hv)]].
  - by apply elem_of_nil in Hk.
  - by apply NoDup_canonical_not_collide in Hcol.
  - by rewrite translate_value_flat in Hv.
  - by eapply NoDup_fmap_1.
Qed.
End flat_mode.

(** C10 — with the recursive flag off, whatever canonicalization returns
    is the input mapping with each top-level key replaced by its
    canonical name and each value kept exactly as given, a nested dict or
    list being the same object as before; and it does return that mapping
    whenever the canonical names of the keys are pairwise different. *)
Theorem translate_aliases_flat_keeps_values (h : heap) (note : string)
    (depth : nat) (kwargs : list (string * value))
    (aliases : gmap string string) :
  (∀ t, translate_aliases h note depth kwargs aliases false = Return t →
        t = TDict (prod_map (canonical aliases) TKeep <$> kwargs))
  ∧ (NoDup (canonical aliases <$> kwargs.*1) →
     translate_aliases h note depth kwargs aliases false
     = Return (TDict (prod_map (canonical aliases) TKeep <$> kwargs))).
Proof.
  unfold translate_aliases.
  set (self := {| aliases := aliases; recursive := false |}).
  assert (∀ titems,
            translate_items self (translate_value h note self depth)
              kwargs kwargs []
            = Return titems →
            titems = prod_map (canonical aliases) TKeep <$> kwargs) as Hshape.
  { intros titems Hrun.
    by apply (translate_items_flat_Return h note self eq_refl) in Hrun. }
  split.
  - intros t Hrun.
    destruct (translate_outcome h note self depth kwargs)
      as [(titems & Hitems & Heq)|[[_ Heq]|(items & ck & _ & Heq)]];
      rewrite Heq in Hrun; try done.
    + injection Hrun as <-. f_equal. by apply Hshape.
    + by destruct (mentions_recursion_depth _).
  - intros Hnodup.
    destruct (translate_items_flat_complete h note self eq_refl depth
                kwargs Hnodup) as [titems Hitems].
    rewrite <- (Hshape _ Hitems).
    apply translate_of_Return. unfold translate_mapping, translate_mapping_via.
    by rewrite Hitems.
Qed.

(** [{"project": "p", "opts": {"dataset": "d"}}] without the recursive
    flag: the top-level key is renamed, the nested dict is the same
    object, its key untouched. *)
Lemma translate_aliases_flat_keeps_values_witness :
  let kwargs := [("project", VStr "p"); ("opts", VRef 0)] in
  NoDup (canonical adapter_aliases <$> kwargs.*1)
  ∧ translate_aliases adapter_config "" 1000 kwargs adapter_aliases false
    = Return (TDict [("database", TKeep (VStr "p")); ("opts", TKeep (VRef 0))]).
Proof.
  intros kwargs.
  assert (NoDup (canonical adapter_aliases <$> kwargs.*1)) as Hnodup
    by (apply (bool_decide_unpack _); vm_compute; exact I).
  split; [exact Hnodup|].
  exact (proj2 (translate_aliases_flat_keeps_values adapter_config "" 1000
                  kwargs adapter_aliases) Hnodup).
Defined.

Section translate_levels.
Variable h : heap.
Variable note : string.
Variable self : Translator.

Local Abbreviation run depth kwargs :=
  (translate_items self (translate_value h note self depth) kwargs kwargs []).



(** The duplicate-key error of [translate_mapping] carries a level that
    was to be renamed and that has clashing keys. *)
Lemma translate_duplicate_level depth kwargs items al ck :
  heap_wf h → NoDup kwargs.*1 →
  translate_mapping h note self depth kwargs
  = Raise (DuplicateAliasError items al ck) →
  level_of h (recursive self) kwargs items ∧ collide (aliases self) items.
Proof.
  intros Hwf Hnodup Hrun%translate_mapping_via_Raise.
  apply translate_items_Raise in Hrun
      as [(k & _ & Hk)|[[Hcol [ck' Heq]]|(v0 & Hin & Hv0)]]; [| | |done].
  - by apply elem_of_nil in Hk.
  - injection Heq as -> _ _. split; [by left|done].
  - destruct (recursive self) eqn:Hrec.
    + destruct (translate_value_duplicate h note self Hrec depth v0 items
                  al ck Hwf Hv0) as (v & Hreach & Hd & Hcol).
      split; [|done]. right. split; [done|]. eauto.
    + by rewrite translate_value_flat in Hv0.
Qed.

Lemma translate_duplicate_collides depth kwargs items al ck :
  heap_wf h → NoDup kwargs.*1 →
  translate_mapping h note self depth kwargs
  = Raise (DuplicateAliasError items al ck) →
  collides_in h (aliases self) (recursive self) kwargs.
Proof.
  intros Hwf Hnodup Hrun. exists items.
  by eapply translate_duplicate_level.
Qed.

(** Without the recursive flag nothing descends, so the stack cannot run
    out. *)
Lemma translate_flat_no_stack depth kwargs :
  recursive self = false →
  translate_mapping h note self depth kwargs ≠ Raise (stack_exhausted note).
Proof.
  intros Hflat Hrun%translate_mapping_via_Raise.
  by apply (translate_items_flat_Raise h note self Hflat) in Hrun as [ck ?].
Qed.

End translate_levels.






(** It fails the other way round as well, and without the recursive
    flag: the keys of [{"maximum recursion depth exceeded": 1,
    "depth": 2}] clash when [depth] is an alias of the other, yet what
    is raised is the cycle error, made by [translate] from the
    duplicate-key error of [translate_mapping]. *)
Example translate_aliases_cycle_from_duplicate :
  let kwargs :=
    [("maximum recursion depth exceeded", VInt 1); ("depth", VInt 2)] in
  let aliases : gmap string string :=
    {[ "depth" := "maximum recursion depth exceeded" ]} in
  translate_mapping ∅ "" {| aliases := aliases; recursive := false |} 1000
    kwargs
  = Raise (DuplicateAliasError kwargs aliases
             "maximum recursion depth exceeded")
  ∧ translate_aliases ∅ "" 1000 kwargs aliases false = Raise cycle_detected.
Proof. split; vm_compute; reflexivity. Qed.

(** *** Self-referential input *)


Section self_reference.
Variable h : heap.
Variable note : string.
Variable self : Translator.
Hypothesis Hrec : recursive self = true.

End self_reference.






(** The bound is on depth, not on cycles: a chain of dicts without any
    cycle, nested deeper than the budget, ends in the cycle error too. *)
Example translate_aliases_deep_chain :
  translate_aliases (deep_config 1200) "" 1000 [("next", VRef 0)] ∅ true
  = Raise cycle_detected.
Proof. vm_compute. reflexivity. Qed.

(** * Further properties of the module *)

(** ** [MultiDict]: the mapping protocol *)

Section MultiDict_protocol.
Context {V : Type}.
Implicit Types (entry : gmap string V) (name : string).

Lemma keyset_loop (entries : list (gmap string V)) : ∀ (keys : gset string) name,
  name ∈ foldl (fun keys entry => keys ∪ dom entry) keys entries
  ↔ name ∈ keys ∨ ∃ entry, entry ∈ entries ∧ is_Some (entry !! name).
Proof.
  induction entries as [|e entries IH]; intros keys name; simpl.
  - split; [by left|]. intros [?|(? & ?%elem_of_nil & _)]; done.
  - rewrite IH, elem_of_union, elem_of_dom. split.
    + intros [[?|?]|(entry & ? & ?)]; [by left | right | right].
      * exists e. split; [apply list_elem_of_here|done].
      * exists entry. split; [by apply list_elem_of_further|done].
    + intros [?|(entry & [->|?]%elem_of_cons & ?)]; [by left; left | by left; right |].
      right. by exists entry.
Qed.

(** The key set is the union of the layers' keys. *)
Lemma keyset_spec (self : MultiDict.t V) name :
  name ∈ MultiDict._keyset self
  ↔ ∃ entry, entry ∈ MultiDict.sources self ∧ is_Some (entry !! name).
Proof.
  unfold MultiDict._keyset, MultiDict._itersource. rewrite keyset_loop.
  split.
  - intros [?%elem_of_empty|(entry & Hin & ?)]; [done|].
    rewrite elem_of_reverse in Hin. by exists entry.
  - intros (entry & Hin & ?). right. exists entry.
    split; [by rewrite elem_of_reverse|done].
Qed.

Lemma contains_spec (self : MultiDict.t V) name :
  MultiDict.__contains__ self name = true
  ↔ ∃ entry, entry ∈ MultiDict.sources self ∧ is_Some (entry !! name).
Proof.
  unfold MultiDict.__contains__, MultiDict._itersource.
  rewrite existsb_exists. split.
  - intros (entry & Hin%list_elem_of_In & ?%dict_contains_true).
    rewrite elem_of_reverse in Hin. by exists entry.
  - intros (entry & Hin & ?). exists entry. split.
    + apply list_elem_of_In. by rewrite elem_of_reverse.
    + by apply dict_contains_true.
Qed.

(** What the lookup loop comes to, either way *)
Lemma getitem_loop_Return (entries : list (gmap string V)) name v :
  MultiDict.getitem_loop entries name = Return v →
  ∃ entry, entry ∈ entries ∧ entry !! name = Some v.
Proof.
  induction entries as [|e entries IH]; simpl; [done|].
  destruct (MultiDict.dict_contains e name) eqn:Hc.
  - unfold MultiDict.dict_getitem.
    destruct (e !! name) as [w|] eqn:He; [|done].
    intros [= <-]. exists e. split; [apply list_elem_of_here|done].
  - intros (entry & ? & ?)%IH. exists entry.
    split; [by apply list_elem_of_further|done].
Qed.

Lemma getitem_loop_Raise (entries : list (gmap string V)) name e :
  MultiDict.getitem_loop entries name = Raise e →
  e = KeyError name ∧ Forall (fun entry => entry !! name = None) entries.
Proof.
  induction entries as [|entry entries IH]; simpl.
  - intros [= <-]. by split.
  - destruct (MultiDict.dict_contains entry name) eqn:Hc.
    + apply dict_contains_true in Hc as [w Hw].
      unfold MultiDict.dict_getitem. by rewrite Hw.
    + apply dict_contains_false in Hc.
      intros [-> ?]%IH. split; [done|]. by constructor.
Qed.

(** The loop over stacked layers: the later ones first, the earlier ones
    only where the later ones have nothing. *)
Lemma getitem_loop_app (later earlier : list (gmap string V)) name :
  MultiDict.getitem_loop (later ++ earlier) name
  = match MultiDict.getitem_loop later name with
    | Return v => Return v
    | Raise _ => MultiDict.getitem_loop earlier name
    end.
Proof.
  induction later as [|entry later IH]; simpl; [done|].
  destruct (MultiDict.dict_contains entry name) eqn:Hc; [|done].
  apply dict_contains_true in Hc as [w Hw].
  unfold MultiDict.dict_getitem. by rewrite Hw.
Qed.

(** X1 — the three faces of the mapping protocol agree: a key passes the
    containment test exactly when iteration yields it, exactly when
    subscripting returns a value; and it fails the test exactly when
    subscripting raises [KeyError] for it. *)
Theorem MultiDict_protocol_agrees (self : MultiDict.t V) name :
  (MultiDict.__contains__ self name = true ↔ name ∈ MultiDict._keyset self)
  ∧ (MultiDict.__contains__ self name = true
     ↔ ∃ v, MultiDict.__getitem__ self name = Return v)
  ∧ (MultiDict.__contains__ self name = false
     ↔ MultiDict.__getitem__ self name = Raise (KeyError name)).
Proof.
  assert (MultiDict.__contains__ self name = true
          ↔ ∃ v, MultiDict.__getitem__ self name = Return v) as Hget.
  { rewrite contains_spec. unfold MultiDict.__getitem__. split.
    - intros (entry & Hin & Hsome).
      destruct (MultiDict.getitem_loop (MultiDict._itersource self) name)
        as [v|e] eqn:Hrun; [by eauto|].
      apply getitem_loop_Raise in Hrun as [_ Hnone].
      rewrite Forall_forall in Hnone.
      unfold MultiDict._itersource in Hnone.
      rewrite (Hnone entry) in Hsome by (by rewrite elem_of_reverse).
      by destruct Hsome.
    - intros [v (entry & Hin & Hv)%getitem_loop_Return].
      unfold MultiDict._itersource in Hin. rewrite elem_of_reverse in Hin.
      exists entry. split; [done | by eauto]. }
  split; [by rewrite contains_spec, keyset_spec|]. split; [exact Hget|].
  split.
  - intros Hfalse.
    destruct (MultiDict.__getitem__ self name) as [v|e] eqn:Hrun.
    + assert (MultiDict.__contains__ self name = true)
        by (apply Hget; eauto).
      congruence.
    + by apply getitem_loop_Raise in Hrun as [-> _].
  - intros Hraise. apply not_true_is_false. intros Hc.
    apply Hget in Hc as [v Hv]. congruence.
Qed.

(** X2 — layers added with [add_from] shadow the ones already there and
    nothing else: a lookup goes to the added layers alone when they have
    the key, and is what it was before when they do not. *)
Theorem MultiDict_add_from_shadows (self : MultiDict.t V)
    (srcs : list (gmap string V)) name :
  MultiDict.__getitem__ (MultiDict.add_from self srcs) name
  = match MultiDict.__getitem__ (MultiDict.mk srcs) name with
    | Return v => Return v
    | Raise _ => MultiDict.__getitem__ self name
    end.
Proof.
  unfold MultiDict.__getitem__, MultiDict._itersource. simpl.
  rewrite reverse_app. apply getitem_loop_app.
Qed.

Lemma keyset_add (self : MultiDict.t V) (layer : gmap string V) :
  MultiDict._keyset (MultiDict.add self layer)
  = MultiDict._keyset self ∪ dom layer.
Proof.
  apply set_eq. intros name.
  rewrite elem_of_union, !keyset_spec, elem_of_dom. simpl. split.
  - intros (entry & [Hin|Hin]%elem_of_app & ?).
    + left. by exists entry.
    + apply list_elem_of_singleton in Hin as ->. by right.
  - intros [(entry & Hin & ?)|?].
    + exists entry. split; [|done]. apply elem_of_app. by left.
    + exists layer. split; [|done]. apply elem_of_app. right.
      apply list_elem_of_here.
Qed.

(** X3 — the length counts every key once: adding a layer raises it by
    the number of keys of the layer that no earlier layer has. *)
Theorem MultiDict_len_add (self : MultiDict.t V) (layer : gmap string V) :
  MultiDict.__len__ (MultiDict.add self layer)
  = (MultiDict.__len__ self
     + size (dom layer ∖ MultiDict._keyset self))%nat.
Proof.
  unfold MultiDict.__len__. rewrite keyset_add. apply size_union_alt.
Qed.
End MultiDict_protocol.

(** ** [coalesce] *)

Lemma coalesce_None (args : list value) :
  coalesce args = VNone ↔ Forall (fun arg => arg = VNone) args.
Proof.
  induction args as [|arg rest IH]; simpl; [by split|].
  rewrite Forall_cons. destruct arg; try tauto; split; try done; by intros [? _].
Qed.

(** X4 — [coalesce] returns its first argument that is not [None]: it
    is [None] exactly when every argument is, and it is a value [v]
    other than [None] exactly when [v] is an argument with nothing but
    [None] before it. *)
Theorem coalesce_first_not_None (args : list value) :
  (coalesce args = VNone ↔ Forall (fun arg => arg = VNone) args)
  ∧ ∀ v, v ≠ VNone →
         (coalesce args = v
          ↔ ∃ before after,
              args = before ++ v :: after
              ∧ Forall (fun arg => arg = VNone) before).
Proof.
  split; [apply coalesce_None|]. intros v Hv. split.
  - induction args as [|arg rest IH]; simpl; [by intros <-|].
    destruct arg; try (intros <-; by exists [], rest).
    intros (before & after & -> & Hnone)%IH.
    exists (VNone :: before), after. split; [done|]. by constructor.
  - intros (before & after & -> & Hnone).
    induction Hnone as [|arg before -> _ IH]; simpl; [by destruct v|done].
Qed.

(** X5 — calls nest: coalescing the result of one call with further
    arguments is coalescing all the arguments in one call. *)
Theorem coalesce_nested (xs ys : list value) :
  coalesce (coalesce xs :: ys) = coalesce (xs ++ ys).
Proof.
  induction xs as [|x xs IH]; simpl; [done|].
  destruct x; simpl; done.
Qed.

(** ** Macro names *)

(** X6 — the two name spaces are apart and faithful: a prefixed macro
    name is never a prefixed docs name, each function gives different
    results on different names, and each fails exactly on [None]. *)
Theorem macro_and_docs_names_apart :
  (∀ a b x y, get_dbt_macro_name a = Done x →
              get_dbt_docs_name b = Done y → x ≠ y)
  ∧ (∀ a b, get_dbt_macro_name a = get_dbt_macro_name b → a = b)
  ∧ (∀ a b, get_dbt_docs_name a = get_dbt_docs_name b → a = b)
  ∧ (∀ a, (∃ e, get_dbt_macro_name a = Failed e) ↔ a = None)
  ∧ (∀ a, (∃ e, get_dbt_docs_name a = Failed e) ↔ a = None).
Proof.
  repeat split.
  - intros [a|] [b|] x y; simpl; try done.
    intros H1 H2 Heq. rewrite Heq, <- H2 in H1. discriminate H1.
  - intros [a|] [b|]; simpl; try done.
    intros [= Heq]. cbv in Heq. by rewrite Heq.
  - intros [a|] [b|]; simpl; try done.
    intros [= Heq]. cbv in Heq. by rewrite Heq.
  - destruct a; simpl; [by intros [e ?] | done].
  - intros ->. simpl. eauto.
  - destruct a; simpl; [by intros [e ?] | done].
  - intros ->. simpl. eauto.
Qed.

(** X7 — test macros and materialization macros: neither function ever
    fails, whatever the names, and no test macro has the name of a
    materialization macro, with the prefix or without. *)
Theorem test_and_materialization_names_apart (test_name : string)
    (materialization_name : string) (adapter_type : option string)
    (with_prefix : bool) :
  ∃ x y,
    get_test_macro_name test_name with_prefix = Done x
    ∧ get_materialization_macro_name materialization_name adapter_type
        with_prefix = Done y
    ∧ x ≠ y.
Proof.
  unfold get_test_macro_name, get_materialization_macro_name.
  destruct with_prefix; simpl; eexists _, _; (split; [done|]);
    (split; [done|]); done.
Qed.

(** ** [humanize_execution_time] *)

(** X8 — the three numbers printed are the time, split: hours, minutes
    and seconds add up to the number of seconds given, minutes and
    seconds are below sixty, and the hours are negative only for a
    negative time. *)
Theorem humanize_execution_time_splits (execution_time : Z) :
  ∃ hours minutes seconds : Z,
    humanize_execution_time execution_time
    = " in " +:+ pretty hours +:+ " hours " +:+ pretty minutes
      +:+ " minutes and " +:+ pretty seconds +:+ ".00 seconds"
    ∧ execution_time = (3600 * hours + 60 * minutes + seconds)%Z
    ∧ (0 ≤ minutes < 60)%Z ∧ (0 ≤ seconds < 60)%Z
    ∧ (0 ≤ hours ↔ 0 ≤ execution_time)%Z.
Proof.
  unfold humanize_execution_time, divmod.
  eexists _, _, _. split; [reflexivity|].
  repeat split; Z.div_mod_to_equations; lia.
Qed.

(** ** [_connection_exception_retry]: what the caller can see *)

Section Retry_outcomes.
Context {St R : Type}.
Implicit Types (fn : St → result R * St) (exc : exn).

Lemma retry_Raise_not_transient fn max_attempts (stack : nat) :
  ∀ attempt (w : world St) exc,
    (_connection_exception_retry stack fn max_attempts attempt w).1
    = Raise exc →
    is_transient exc = false.
Proof.
  induction stack as [|stack IH]; intros attempt w exc; rewrite retry_unfold;
    destruct (call fn w) as [[r|exc'] w1]; simpl; try done;
    destruct (is_transient exc') eqn:Htr; simpl;
    try (intros [= <-]; exact Htr);
    case_decide; simpl; try (by intros [= <-]).
  apply IH.
Qed.

(** X9 — the caller never sees one of the caught exceptions: whatever
    the wrapper raises is outside (RequestException, ReadError,
    EOFError), for every action, budget and attempt index, and whatever
    room the stack has. *)
Theorem retry_never_raises_transient (stack : nat) fn
    (max_attempts attempt : Z) (w : world St) exc :
  (_connection_exception_retry stack fn max_attempts attempt w).1
  = Raise exc →
  is_transient exc = false.
Proof. by eapply retry_Raise_not_transient. Qed.

(** The retries of a run, by the exceptions that caused them *)
Lemma retry_accounts fn max_attempts (stack : nat) :
  ∀ attempt (s : St) (n : nat) ev sl,
    ∃ excs : list exn,
      let run :=
        _connection_exception_retry stack (counting fn) max_attempts attempt
          (World (s, n) ev sl) in
      external run.2 = (state_after fn (S (length excs)) s,
                        (n + S (length excs))%nat)
      ∧ slept run.2 = (sl + Z.of_nat (length excs))%Z
      ∧ fired run.2
        = ev ++ concat (imap (fun (i : nat) exc =>
                                retry_events (attempt + Z.of_nat i)
                                  max_attempts exc) excs)
      ∧ (∀ (i : nat) exc, excs !! i = Some exc →
           (fn (state_after fn i s)).1 = Raise exc
           ∧ is_transient exc = true)
      ∧ (length excs ≤ Z.to_nat (max_attempts - attempt))%nat.
Proof.
  induction stack as [|stack IH]; intros attempt s n ev sl.
  all: destruct (fn s).1 as [r|exc] eqn:Hfn;
    [exists []; cbv zeta; rewrite (retry_returns _ _ _ _ _ _ _ _ r) by done;
     simpl; rewrite app_nil_r, Z.add_0_r, Nat.add_1_r;
     repeat split; try done; lia|].
  all: destruct (is_transient exc) eqn:Htr;
    [|exists []; cbv zeta;
      rewrite retry_unfold, call_counting, Hfn, Htr;
      simpl; rewrite app_nil_r, Z.add_0_r, Nat.add_1_r;
      repeat split; try done; lia].
  all: destruct (decide (attempt ≤ max_attempts - 1)%Z) as [Hle|Hgt];
    [|exists []; cbv zeta;
      rewrite (retry_gives_up _ _ _ _ _ _ _ _ exc) by done;
      simpl; rewrite app_nil_r, Z.add_0_r, Nat.add_1_r;
      repeat split; try done; lia].
  - exists []. cbv zeta.
    rewrite (retry_out_of_stack _ _ _ _ _ _ _ exc) by done.
    simpl. rewrite app_nil_r, Z.add_0_r, Nat.add_1_r.
    repeat split; try done. lia.
  - destruct (IH (attempt + 1)%Z (fn s).2 (S n)
                (ev ++ retry_events attempt max_attempts exc) (sl + 1)%Z)
      as (excs & HIH).
    cbv zeta in HIH. destruct HIH as (Hext & Hslept & Hfired & Hexcs & Hlen).
    exists (exc :: excs). cbv zeta.
    rewrite (retry_again _ _ _ _ _ _ _ _ exc) by done.
    rewrite Hext, Hslept, Hfired. cbn [length state_after imap concat].
    split; [f_equal; lia|]. split; [lia|]. split.
    { rewrite <- app_assoc, Z.add_0_r. do 3 f_equal.
      apply imap_ext. intros i exc' _. simpl. f_equal. lia. }
    split; [|lia].
    intros [|i] exc'; simpl; [by intros [= <-]|]. apply Hexcs.
Qed.

(** X10 — the books of a run balance, whatever room the stack has.
    The caught exceptions [excs] of the invocations before the last
    account for everything else the wrapper did: one more invocation
    than there are retries, one second slept per retry, and per retry
    the two events, numbered from the attempt index on without a gap. *)
Theorem retry_books_balance (stack : nat) fn (max_attempts attempt : Z)
    (s : St) (n : nat) ev sl :
  ∃ excs : list exn,
    let run :=
      _connection_exception_retry stack (counting fn) max_attempts attempt
        (World (s, n) ev sl) in
    external run.2 = (state_after fn (S (length excs)) s,
                      (n + S (length excs))%nat)
    ∧ slept run.2 = (sl + Z.of_nat (length excs))%Z
    ∧ fired run.2
      = ev ++ concat (imap (fun (i : nat) exc =>
                              retry_events (attempt + Z.of_nat i)
                                max_attempts exc) excs)
    ∧ (∀ (i : nat) exc, excs !! i = Some exc →
         (fn (state_after fn i s)).1 = Raise exc
         ∧ is_transient exc = true)
    ∧ (length excs ≤ Z.to_nat (max_attempts - attempt))%nat.
Proof. by apply retry_accounts. Qed.

(** X11 — with no retry left (an attempt index above
    [max_attempts - 1], as with a budget of zero or less from index 0)
    the action is invoked once and that is all: its result is returned,
    an exception outside the caught classes is raised as it is, a caught
    one is raised as the terminal connection error, and nothing is fired
    or slept. *)
Theorem retry_without_budget (stack : nat) fn (max_attempts attempt : Z)
    (s : St) (n : nat) ev sl :
  ¬ (attempt ≤ max_attempts - 1)%Z →
  _connection_exception_retry stack (counting fn) max_attempts attempt
    (World (s, n) ev sl)
  = (match (fn s).1 with
     | Return r => Return r
     | Raise exc => if is_transient exc then Raise (retry_message exc)
                    else Raise exc
     end,
     World ((fn s).2, S n) ev sl).
Proof.
  intros Hout. rewrite retry_unfold, call_counting.
  destruct (fn s).1 as [r|exc]; [done|].
  destruct (is_transient exc); [|done]. by rewrite decide_False by done.
Qed.
End Retry_outcomes.

(** A budget of zero: [flaky_twice] is given up on at its first
    failure. *)
Lemma retry_without_budget_witness :
  _connection_exception_retry 1000 (counting flaky_twice) 0 0
    (World (0%nat, 0%nat) [] 0)
  = (Raise (ConnectionError
              "External connection exception occurred: connection reset"),
     World (1%nat, 1%nat) [] 0).
Proof.
  apply (retry_without_budget 1000 flaky_twice 0 0 0%nat 0%nat [] 0). lia.
Defined.

(** The caught exceptions never get out of a run on [always_down]. *)
Lemma retry_never_raises_transient_witness :
  is_transient
    (ConnectionError
       "External connection exception occurred: unexpected end of data")
  = false.
Proof.
  apply (retry_never_raises_transient 1000 always_down 3 0
           (World 0%nat [] 0)).
  vm_compute. reflexivity.
Defined.

(** ** [fqn_search]: the levels as a whole *)

Section fqn_search_levels.
Variable h : heap.

Lemma fqn_levels_dicts (fqn : list string) : ∀ root : value,
  Forall (fun v => is_Some (as_dict h v)) (fqn_levels h root fqn).1
  ∧ (length (fqn_levels h root fqn).1 ≤ length fqn)%nat.
Proof.
  induction fqn as [|level rest IH]; intros root; simpl; [by split|].
  destruct (dict_get h root level) as [config|e]; simpl; [|split; [done|lia]].
  destruct (as_dict h config) as [inner|] eqn:Hconfig; simpl;
    [|split; [done|lia]].
  destruct (IH config) as [Hall Hlen].
  destruct (fqn_levels h config rest) as [more e]. simpl in *.
  split; [|lia]. constructor; [by rewrite Hconfig | done].
Qed.

(** X12 — on a root that is a mapping, everything yielded is a mapping,
    and there are at most as many levels after the root as the path has
    segments. *)
Theorem fqn_search_yields_dicts (root : value) (fqn : list string) :
  is_Some (as_dict h root) →
  Forall (fun v => is_Some (as_dict h v)) (fqn_search h root fqn).1
  ∧ (length (fqn_search h root fqn).1 ≤ S (length fqn))%nat.
Proof.
  intros Hroot. destruct (fqn_levels_dicts fqn root) as [Hall Hlen].
  unfold fqn_search. destruct (fqn_levels h root fqn) as [levels e].
  simpl in *. split; [by constructor | lia].
Qed.

(** Searching along [p ++ q], when [p] leads somewhere and when it does
    not *)
Lemma fqn_levels_app (p q : list string) : ∀ root v : value,
  level_at h root p = Some v →
  fqn_levels h root (p ++ q)
  = ((fqn_levels h root p).1 ++ (fqn_levels h v q).1, (fqn_levels h v q).2).
Proof.
  induction p as [|segment p IH]; intros root v; simpl.
  - intros [= <-]. by destruct (fqn_levels h root q).
  - unfold dict_get. destruct (as_dict h root) as [items|]; simpl; [|done].
    destruct (dict_lookup items segment) as [inner|]; simpl; [|done].
    destruct (as_dict h inner) as [items'|]; simpl; [|done].
    intros Hv. rewrite (IH _ _ Hv).
    by destruct (fqn_levels h inner p).
Qed.

Lemma fqn_levels_stuck (p q : list string) : ∀ root : value,
  is_Some (as_dict h root) →
  level_at h root p = None →
  fqn_levels h root (p ++ q) = fqn_levels h root p.
Proof.
  induction p as [|segment p IH]; intros root [items Hroot]; simpl; [done|].
  unfold dict_get. rewrite Hroot. simpl.
  destruct (dict_lookup items segment) as [inner|]; simpl; [|done].
  destruct (as_dict h inner) as [items'|] eqn:Hinner; simpl; [|done].
  intros Hnone. rewrite IH; [done | by eauto | done].
Qed.

(** X13 — a search along [p ++ q] is the search along [p] followed by
    the search along [q] from where [p] leads; and where [p] leads
    nowhere, because one of its segments is absent or no mapping, [q] is
    never looked at. *)
Theorem fqn_search_app (root : value) (p q : list string) :
  is_Some (as_dict h root) →
  match level_at h root p with
  | Some v =>
      (fqn_search h root (p ++ q)).1
      = (fqn_search h root p).1 ++ tail (fqn_search h v q).1
      ∧ (fqn_search h root (p ++ q)).2 = (fqn_search h v q).2
  | None => fqn_search h root (p ++ q) = fqn_search h root p
  end.
Proof.
  intros Hroot. unfold fqn_search.
  destruct (level_at h root p) as [v|] eqn:Hp.
  - rewrite (fqn_levels_app _ _ _ _ Hp).
    destruct (fqn_levels h root p), (fqn_levels h v q). simpl. done.
  - by rewrite fqn_levels_stuck.
Qed.
End fqn_search_levels.

(** In [{"a": {"b": {"c": 1}}}]: the search along [a, b, z] is the one
    along [a] followed by the one along [b, z] from [{"b": ...}]. *)
Lemma fqn_search_yields_dicts_witness :
  is_Some (as_dict nested_config (VRef 0))
  ∧ Forall (fun v => is_Some (as_dict nested_config v))
      (fqn_search nested_config (VRef 0) ["a"; "b"; "z"]).1
  ∧ (length (fqn_search nested_config (VRef 0) ["a"; "b"; "z"]).1 ≤ 4)%nat.
Proof.
  assert (is_Some (as_dict nested_config (VRef 0))) as Hroot
    by (vm_compute; eauto).
  split; [exact Hroot|].
  exact (fqn_search_yields_dicts nested_config (VRef 0) ["a"; "b"; "z"] Hroot).
Defined.

Lemma fqn_search_app_witness :
  is_Some (as_dict nested_config (VRef 0))
  ∧ (fqn_search nested_config (VRef 0) (["a"] ++ ["b"; "z"])).1
    = (fqn_search nested_config (VRef 0) ["a"]).1
      ++ tail (fqn_search nested_config (VRef 1) ["b"; "z"]).1
  ∧ fqn_search nested_config (VRef 0) (["z"] ++ ["a"; "b"])
    = fqn_search nested_config (VRef 0) ["z"].
Proof.
  assert (is_Some (as_dict nested_config (VRef 0))) as Hroot
    by (vm_compute; eauto).
  split; [exact Hroot|]. split.
  - exact (proj1 (fqn_search_app nested_config (VRef 0) ["a"] ["b"; "z"]
                    Hroot)).
  - exact (fqn_search_app nested_config (VRef 0) ["z"] ["a"; "b"] Hroot).
Defined.

(** ** [Translator]: what comes back, and what is reported *)

Section translate_output.
Variable h : heap.
Variable note : string.
Variable self : Translator.

Local Abbreviation canon := (canonical (aliases self)).

Lemma translate_items_Return_keys tv kwargs titems :
  translate_items self tv kwargs kwargs [] = Return titems →
  titems.*1 = canon <$> kwargs.*1 ∧ NoDup titems.*1.
Proof.
  intros (built & -> & Hall & Hnodup & _)%translate_items_Return. simpl.
  assert (built.*1 = canon <$> kwargs.*1) as ->; [|done].
  clear Hnodup.
  induction Hall as [|kv kt items built' [Hk _] _ IH]; [done|].
  rewrite !fmap_cons. by rewrite Hk, IH.
Qed.

(** More room on the stack changes nothing, unless the stack had run
    out. *)
Lemma translate_items_mono (tv1 tv2 : value → result tvalue) whole kwargs :
  (∀ v o, tv1 v = o → o ≠ Raise (stack_exhausted note) → tv2 v = o) →
  ∀ acc o,
    translate_items self tv1 whole kwargs acc = o →
    o ≠ Raise (stack_exhausted note) →
    translate_items self tv2 whole kwargs acc = o.
Proof.
  intros Htv.
  induction kwargs as [|[k v] rest IH]; intros acc o Hrun Hne; simpl in *;
    [done|].
  destruct (dict_in acc (canon k)); [done|].
  destruct (tv1 v) as [t|e] eqn:Hv; simpl in Hrun.
  - rewrite (Htv v (Return t) Hv) by done. simpl. by apply IH.
  - subst o. rewrite (Htv v (Raise e) Hv); [done|].
    intros [= ->]. by apply Hne.
Qed.

Lemma translate_elems_mono (tv1 tv2 : value → result tvalue) elems :
  (∀ v o, tv1 v = o → o ≠ Raise (stack_exhausted note) → tv2 v = o) →
  ∀ o,
    translate_elems tv1 elems = o →
    (∀ e, o = Raise e → e ≠ stack_exhausted note) →
    translate_elems tv2 elems = o.
Proof.
  intros Htv.
  induction elems as [|v rest IH]; intros o Hrun Hne; simpl in *; [done|].
  destruct (tv1 v) as [t|e] eqn:Hv; simpl in Hrun.
  - rewrite (Htv v (Return t) Hv) by done. simpl.
    destruct (translate_elems tv1 rest) as [ts|e] eqn:Hrest; simpl in Hrun;
      subst o.
    + by rewrite (IH (Return ts)).
    + rewrite (IH (Raise e)); [done|done|].
      intros e' [= <-]. by apply Hne.
  - subst o. rewrite (Htv v (Raise e) Hv); [done|].
    intros [= ->]. by apply (Hne (stack_exhausted note)).
Qed.

Lemma translate_value_unfold depth v :
  translate_value h note self (S depth) v
  = if recursive self then
      match as_dict h v with
      | Some items =>
          translate_mapping_via self (translate_value h note self depth) items
      | None =>
          match as_sequence h v with
          | Some elems =>
              translate_sequence_via (translate_value h note self depth) elems
          | None => Return (TKeep v)
          end
      end
    else Return (TKeep v).
Proof. reflexivity. Qed.

Lemma translate_value_mono depth : ∀ v o,
  translate_value h note self depth v = o →
  o ≠ Raise (stack_exhausted note) →
  translate_value h note self (S depth) v = o.
Proof.
  induction depth as [|d IH]; intros v o.
  - simpl. destruct (recursive self); [|done].
    destruct (as_dict h v); [by intros <- | ].
    destruct (as_sequence h v); [by intros <- | done].
  - rewrite (translate_value_unfold (S d)), (translate_value_unfold d).
    destruct (recursive self); [|done].
    destruct (as_dict h v) as [items|].
    + unfold translate_mapping_via. intros Hrun Hne.
      destruct (translate_items self (translate_value h note self d)
                  items items [])
        as [titems|e] eqn:Hitems; simpl in Hrun; subst o.
      * by rewrite (translate_items_mono _ (translate_value h note self (S d))
                      items items IH [] (Return titems)).
      * rewrite (translate_items_mono _ (translate_value h note self (S d))
                   items items IH [] (Raise e)); [done|done|].
        intros [= ->]. done.
    + destruct (as_sequence h v) as [elems|]; [|done].
      unfold translate_sequence_via. intros Hrun Hne.
      destruct (translate_elems (translate_value h note self d) elems)
        as [ts|e] eqn:Helems; simpl in Hrun; subst o.
      * by rewrite (translate_elems_mono _ (translate_value h note self (S d))
                      elems IH (Return ts)).
      * rewrite (translate_elems_mono _ (translate_value h note self (S d))
                   elems IH (Raise e)); [done|done|].
        intros e' [= <-] ->. done.
Qed.

Lemma translate_mono_step depth kwargs :
  translate h note self depth kwargs ≠ Raise cycle_detected →
  translate h note self (S depth) kwargs = translate h note self depth kwargs.
Proof.
  intros Hne.
  assert (translate_mapping h note self depth kwargs
          ≠ Raise (stack_exhausted note)) as Hne'.
  { by apply translate_not_cycle_stack. }
  unfold translate, translate_mapping, translate_mapping_via in *.
  destruct (translate_items self (translate_value h note self depth)
              kwargs kwargs [])
    as [titems|e] eqn:Hitems.
  - by rewrite (translate_items_mono _ (translate_value h note self (S depth))
                  kwargs kwargs (translate_value_mono depth) []
                  (Return titems)).
  - rewrite (translate_items_mono _ (translate_value h note self (S depth))
               kwargs kwargs (translate_value_mono depth) [] (Raise e));
      [done|done|].
    intros [= ->]. done.
Qed.

Lemma translate_mono depth (more : nat) kwargs :
  translate h note self depth kwargs ≠ Raise cycle_detected →
  translate h note self (more + depth) kwargs
  = translate h note self depth kwargs.
Proof.
  intros Hne. induction more as [|more IH]; [done|]. simpl.
  rewrite translate_mono_step; [done|]. by rewrite IH.
Qed.
End translate_output.

Section translate_reports.
Variable h : heap.
Variable note : string.
Variable self : Translator.

Local Abbreviation canon := (canonical (aliases self)).

(** The duplicate-key error of the loop names the canonical key that two
    keys of the dict share. *)
Lemma translate_items_Raise_key tv whole (kwargs : list (string * value)) :
  NoDup kwargs.*1 →
  ∀ acc items al ck,
    translate_items self tv whole kwargs acc
    = Raise (DuplicateAliasError items al ck) →
    (ck ∈ acc.*1 ∧ ∃ k, k ∈ kwargs.*1 ∧ canon k = ck)
    ∨ (∃ k1 k2, k1 ≠ k2 ∧ k1 ∈ kwargs.*1 ∧ k2 ∈ kwargs.*1
                ∧ canon k1 = ck ∧ canon k2 = ck)
    ∨ (∃ v, v ∈ kwargs.*2 ∧ tv v = Raise (DuplicateAliasError items al ck)).
Proof.
  induction kwargs as [|[k v] rest IH]; intros Hnodup acc items al ck Hrun;
    simpl in *; [done|].
  apply NoDup_cons in Hnodup as [Hk Hnodup].
  destruct (dict_in acc (canon k)) eqn:Hin.
  { injection Hrun as _ _ <-. left. split; [by apply dict_in_true|].
    exists k. split; [apply list_elem_of_here|done]. }
  apply dict_in_false in Hin.
  destruct (tv v) as [t|e'] eqn:Hv; simpl in Hrun.
  2: { injection Hrun as ->. right; right. exists v.
       split; [apply list_elem_of_here|done]. }
  rewrite dict_setitem_fresh in Hrun by done.
  destruct (IH Hnodup _ _ _ _ Hrun)
    as [(Hacc & k' & Hk' & Heq)|[Hcol|(v' & ? & ?)]].
  - rewrite fmap_app, elem_of_app in Hacc. destruct Hacc as [Hacc|Hacc].
    + left. split; [done|]. exists k'.
      split; [by apply list_elem_of_further|done].
    + right; left. simpl in Hacc. apply list_elem_of_singleton in Hacc.
      exists k, k'. split; [by intros ->|].
      split; [apply list_elem_of_here|].
      split; [by apply list_elem_of_further|]. by rewrite Heq.
  - right; left. destruct Hcol as (k1 & k2 & ? & ? & ? & ? & ?).
    exists k1, k2. repeat split; try done; by apply list_elem_of_further.
  - right; right. exists v'. split; [by apply list_elem_of_further|done].
Qed.

Lemma translate_value_duplicate_key depth : ∀ v kw al ck,
  heap_wf h →
  translate_value h note self depth v = Raise (DuplicateAliasError kw al ck) →
  ∃ v' items,
    rtc (child h) v v' ∧ as_dict h v' = Some items
    ∧ ∃ k1 k2, k1 ≠ k2 ∧ k1 ∈ items.*1 ∧ k2 ∈ items.*1
               ∧ canon k1 = ck ∧ canon k2 = ck.
Proof.
  induction depth as [|d IH]; intros v kw al ck Hwf Hrun; simpl in Hrun;
    (destruct (recursive self); [|done]);
    (destruct (as_dict h v) as [items|] eqn:Hd;
     [|destruct (as_sequence h v) as [elems|] eqn:Hs; [|done]]);
    try done.
  - apply translate_mapping_via_Raise in Hrun.
    apply translate_items_Raise_key in Hrun
        as [[Hk _]|[Hcol|(v1 & Hin & Hv1)]];
      [by apply elem_of_nil in Hk | | | by eapply as_dict_wf].
    + exists v, items. by split; [apply rtc_refl|].
    + destruct (IH _ _ _ _ Hwf Hv1) as (v' & items' & Hreach & ? & ?).
      exists v', items'. split; [|done].
      eapply rtc_l; [|exact Hreach]. left. eauto.
  - apply translate_sequence_via_Raise in Hrun.
    apply translate_elems_Raise in Hrun as (v1 & Hin & Hv1).
    destruct (IH _ _ _ _ Hwf Hv1) as (v' & items' & Hreach & ? & ?).
    exists v', items'. split; [|done].
    eapply rtc_l; [|exact Hreach]. right. eauto.
Qed.
End translate_reports.

(** X14 — a mapping that comes back has one item per item of the
    input, in the same order, under the canonical names, and no key
    twice: it is a dict again. *)
Theorem translate_aliases_output_keys (h : heap) (note : string)
    (depth : nat) (kwargs : list (string * value))
    (aliases : gmap string string) (recurse : bool) (t : tvalue) :
  translate_aliases h note depth kwargs aliases recurse = Return t →
  ∃ titems,
    t = TDict titems
    ∧ titems.*1 = canonical aliases <$> kwargs.*1
    ∧ NoDup titems.*1.
Proof.
  unfold translate_aliases.
  set (self := {| aliases := aliases; recursive := recurse |}).
  destruct (translate_outcome h note self depth kwargs)
    as [(titems & Hitems & ->)|[[_ ->]|(items & ck & _ & ->)]]; try done.
  - intros [= <-]. exists titems. split; [done|].
    exact (translate_items_Return_keys self _ _ _ Hitems).
  - by destruct (mentions_recursion_depth _).
Qed.

(** X15 — room on the stack beyond what was needed changes nothing: an
    outcome other than the cycle error is the outcome under every larger
    budget too. *)
Theorem translate_aliases_depth_irrelevant (h : heap) (note : string)
    (depth depth' : nat) (kwargs : list (string * value))
    (aliases : gmap string string) (recurse : bool) :
  (depth ≤ depth')%nat →
  translate_aliases h note depth kwargs aliases recurse
  ≠ Raise cycle_detected →
  translate_aliases h note depth' kwargs aliases recurse
  = translate_aliases h note depth kwargs aliases recurse.
Proof.
  intros Hle Hne. unfold translate_aliases in *.
  replace depth' with ((depth' - depth) + depth)%nat by lia.
  by apply translate_mono.
Qed.

(** X16 — the duplicate-key error names the clash: its key is the
    canonical name of two distinct keys of one mapping level that was to
    be renamed. *)
Theorem translate_aliases_duplicate_names_clash (h : heap) (note : string)
    (depth : nat) (kwargs : list (string * value))
    (aliases : gmap string string) (recurse : bool)
    (kw : list (string * value)) (al : gmap string string) (ck : string) :
  heap_wf h → NoDup kwargs.*1 →
  translate_aliases h note depth kwargs aliases recurse
  = Raise (DuplicateAliasError kw al ck) →
  ∃ items k1 k2,
    level_of h recurse kwargs items
    ∧ k1 ≠ k2 ∧ k1 ∈ items.*1 ∧ k2 ∈ items.*1
    ∧ canonical aliases k1 = ck ∧ canonical aliases k2 = ck.
Proof.
  intros Hwf Hnodup. unfold translate_aliases.
  set (self := {| aliases := aliases; recursive := recurse |}).
  destruct (translate_outcome h note self depth kwargs)
    as [(titems & _ & ->)|[[_ ->]|(kw' & ck' & Hdup & ->)]]; try done.
  destruct (mentions_recursion_depth _); [done|].
  intros [= -> -> ->].
  apply translate_mapping_via_Raise in Hdup.
  apply translate_items_Raise_key in Hdup
      as [[Hk _]|[(k1 & k2 & ?)|(v0 & Hin & Hv0)]]; [| | |done].
  - by apply elem_of_nil in Hk.
  - exists kwargs, k1, k2. split; [by left|done].
  - destruct recurse eqn:Hrec.
    + destruct (translate_value_duplicate_key h note self depth v0 _ _ ck
                  Hwf Hv0) as (v & items & Hreach & Hd & k1 & k2 & ?).
      exists items, k1, k2. split; [|done]. right. split; [done|]. eauto.
    + by rewrite translate_value_flat in Hv0.
Qed.

(** X17 — an alias table that sends no two names to one canonical name
    (the empty table, say) never gives the duplicate-key error, and
    without the recursive flag it always gives the mapping back. *)
Theorem translate_aliases_one_to_one (h : heap) (note : string)
    (depth : nat) (kwargs : list (string * value))
    (aliases : gmap string string) (recurse : bool) :
  heap_wf h → NoDup kwargs.*1 →
  (∀ k1 k2, canonical aliases k1 = canonical aliases k2 → k1 = k2) →
  (∀ kw al ck, translate_aliases h note depth kwargs aliases recurse
               ≠ Raise (DuplicateAliasError kw al ck))
  ∧ (recurse = false →
     translate_aliases h note depth kwargs aliases recurse
     = Return (TDict (prod_map (canonical aliases) TKeep <$> kwargs))).
Proof.
  intros Hwf Hnodup Hinj.
  assert (∀ depth' pairs kw al ck,
            NoDup pairs.*1 →
            translate_mapping h note {| aliases := aliases;
                                        recursive := recurse |} depth' pairs
            ≠ Raise (DuplicateAliasError kw al ck)) as Hnone.
  { intros depth' pairs kw al ck Hpairs Hdup.
    destruct (translate_duplicate_collides h note _ _ _ _ _ _
                Hwf Hpairs Hdup)
      as (items & _ & k1 & k2 & Hne & _ & _ & Heq).
    by apply Hne, Hinj. }
  split.
  - intros kw al ck Hrun. unfold translate_aliases in Hrun.
    set (self := {| aliases := aliases; recursive := recurse |}) in *.
    destruct (translate_outcome h note self depth kwargs)
      as [(titems & _ & Heq)|[[_ Heq]|(kw' & ck' & Hdup & _)]];
      [by rewrite Heq in Hrun | by rewrite Heq in Hrun |].
    by apply Hnone in Hdup.
  - intros ->. unfold translate_aliases in *.
    set (self := {| aliases := aliases; recursive := false |}) in *.
    destruct (translate_outcome h note self depth kwargs)
      as [(titems & Hitems & ->)|[[Hstack _]|(kw' & ck' & Hdup & _)]].
    + by rewrite (translate_items_flat_Return h note self eq_refl _ _ _
                    Hitems).
    + by apply (translate_flat_no_stack h note self) in Hstack.
    + by apply Hnone in Hdup.
Qed.

(** [{"project": "p", "opts": {"dataset": "d"}}] in recursive mode: two
    items, in the order of the input; the same outcome with room for one
    level only; and, with [project] next to [database], an error whose
    key is the canonical name of both. *)
Lemma translate_aliases_output_keys_witness :
  let kwargs := [("project", VStr "p"); ("opts", VRef 0)] in
  ∃ titems,
    translate_aliases adapter_config "" 1000 kwargs adapter_aliases true
    = Return (TDict titems)
    ∧ titems.*1 = ["database"; "opts"] ∧ NoDup titems.*1.
Proof.
  intros kwargs.
  destruct (translate_aliases_output_keys adapter_config "" 1000 kwargs
              adapter_aliases true
              (TDict [("database", TKeep (VStr "p"));
                      ("opts", TDict [("schema", TKeep (VStr "d"))])]))
    as (titems & Heq & Hkeys & Hnodup); [vm_compute; reflexivity|].
  exists titems. split; [by rewrite <- Heq; vm_compute|]. by split.
Defined.

Lemma translate_aliases_depth_irrelevant_witness :
  let kwargs := [("project", VStr "p"); ("opts", VRef 0)] in
  translate_aliases adapter_config "" 1000 kwargs adapter_aliases true
  = translate_aliases adapter_config "" 1 kwargs adapter_aliases true.
Proof.
  intros kwargs.
  apply (translate_aliases_depth_irrelevant adapter_config "" 1 1000 kwargs
           adapter_aliases true); [lia|].
  vm_compute. discriminate.
Defined.

Lemma translate_aliases_duplicate_names_clash_witness :
  let kwargs := [("project", VStr "p"); ("database", VStr "q")] in
  ∃ items k1 k2,
    level_of adapter_config false kwargs items
    ∧ k1 ≠ k2 ∧ k1 ∈ items.*1 ∧ k2 ∈ items.*1
    ∧ canonical adapter_aliases k1 = "database"
    ∧ canonical adapter_aliases k2 = "database".
Proof.
  intros kwargs.
  apply (translate_aliases_duplicate_names_clash adapter_config "" 1000
           kwargs adapter_aliases false kwargs adapter_aliases "database").
  - apply (bool_decide_unpack _); vm_compute; exact I.
  - apply (bool_decide_unpack _); vm_compute; exact I.
  - vm_compute. reflexivity.
Defined.

Lemma translate_aliases_one_to_one_witness :
  let kwargs := [("project", VStr "p"); ("opts", VRef 0)] in
  translate_aliases adapter_config "" 1000 kwargs ∅ false
  = Return (TDict [("project", TKeep (VStr "p")); ("opts", TKeep (VRef 0))]).
Proof.
  intros kwargs.
  destruct (translate_aliases_one_to_one adapter_config "" 1000 kwargs ∅
              false) as [_ Hback].
  - apply (bool_decide_unpack _); vm_compute; exact I.
  - apply (bool_decide_unpack _); vm_compute; exact I.
  - intros k1 k2. unfold canonical. by rewrite !lookup_empty.
  - exact (Hback eq_refl).
Defined.

(** ** [memoized]: the cache *)

Section memoized_facts.
Context {Args R St : Type} `{Countable Args}.
Variable isinstance_Hashable : Args → bool.
Variable hashes : Args → bool.
Variable func : Args → St → outcome R * St.

Local Abbreviation call := (memoized.__call__ isinstance_Hashable hashes func).
Local Abbreviation calls := (memoized.calls isinstance_Hashable hashes func).

(** A call changes the cache by at most the entry of its own
    arguments, and that only when it comes back with a result. *)
Lemma memoized_call_cache (self : memoized.t Args R) args (s : St) :
  (call self args s).1.2 = self
  ∨ (memoized.cache self !! args = None
     ∧ ∃ value,
         (call self args s).1.1 = Done value
         ∧ (call self args s).1.2
           = memoized.mk (<[args := value]> (memoized.cache self))).
Proof.
  unfold memoized.__call__.
  destruct (isinstance_Hashable args); simpl.
  2: { left. by destruct (func args s). }
  destruct (hashes args); simpl; [|by left].
  destruct (memoized.cache self !! args) as [value|] eqn:Hcache; [by left|].
  destruct (func args s) as [[value|e] s']; [|by left].
  right. split; [done|]. by exists value.
Qed.

Lemma memoized_call_keeps (self : memoized.t Args R) args (s : St) a v :
  memoized.cache self !! a = Some v →
  memoized.cache (call self args s).1.2 !! a = Some v.
Proof.
  intros Ha.
  destruct (memoized_call_cache self args s)
    as [->|(Hnone & value & _ & ->)]; [done|]. simpl.
  rewrite lookup_insert_ne; [done|]. intros ->. congruence.
Qed.

Lemma memoized_calls_keep (argss : list Args) :
  ∀ (self : memoized.t Args R) (s : St) a v,
    memoized.cache self !! a = Some v →
    memoized.cache (calls self argss s).1.2 !! a = Some v.
Proof.
  induction argss as [|args rest IH]; intros self s a v Ha; simpl; [done|].
  pose proof (memoized_call_keeps self args s a v Ha) as Hkept.
  destruct (call self args s) as [[r self'] s']. simpl in Hkept.
  specialize (IH self' s' a v Hkept).
  destruct (calls self' rest s') as [[rs self''] s'']. done.
Qed.

(** A call that finds its arguments in the cache *)
Lemma memoized_call_hit (self : memoized.t Args R) args (s : St) v :
  isinstance_Hashable args = true → hashes args = true →
  memoized.cache self !! args = Some v →
  call self args s = (Done v, self, s).
Proof.
  intros Hinst Hhash Hcache. unfold memoized.__call__.
  by rewrite Hinst, Hhash, Hcache.
Qed.

(** X18 — once a call with arguments that pass the hashable test has
    come back with a value, every later call with these arguments comes
    back with that value and does not run the function: the function's
    state and the cache are as before the call, whatever calls were made
    in between and whatever the function would return now. *)
Theorem memoized_returns_first_value (self : memoized.t Args R) args
    (s : St) (value : R) (between : list Args) (s2 : St) :
  isinstance_Hashable args = true →
  (call self args s).1.1 = Done value →
  let self1 := (call self args s).1.2 in
  let self2 := (calls self1 between s2).1.2 in
  ∀ s3, call self2 args s3 = (Done value, self2, s3).
Proof.
  intros Hinst Hvalue self1 self2 s3.
  assert (hashes args = true
          ∧ memoized.cache self1 !! args = Some value) as [Hhash Hcache].
  { unfold self1. unfold memoized.__call__ in *. rewrite Hinst in *.
    simpl in *. destruct (hashes args); simpl in *; [|done].
    split; [done|].
    destruct (memoized.cache self !! args) as [w|] eqn:Hcache; simpl in *.
    - by injection Hvalue as <-.
    - destruct (func args s) as [[w|e] s']; simpl in *; [|done].
      injection Hvalue as <-. apply lookup_insert_eq. }
  apply memoized_call_hit; [done|done|].
  by apply memoized_calls_keep.
Qed.

(** X19 — the cache only grows, and only by results: a call keeps
    every entry as it is, adds at most the entry of its own arguments
    with the value it returns, and adds nothing when it fails; and when
    the arguments pass the hashable test but cannot be hashed, it fails
    with [TypeError] without running the function. *)
Theorem memoized_cache_grows (self : memoized.t Args R) args (s : St) :
  let r := (call self args s).1.1 in
  let self' := (call self args s).1.2 in
  (∀ a v, memoized.cache self !! a = Some v →
          memoized.cache self' !! a = Some v)
  ∧ (∀ a v, memoized.cache self' !! a = Some v →
            memoized.cache self !! a = Some v ∨ (a = args ∧ r = Done v))
  ∧ (∀ e, r = Failed e → self' = self)
  ∧ (isinstance_Hashable args = true → hashes args = false →
     call self args s = (Failed (TypeError "unhashable type"), self, s)).
Proof.
  intros r self'. split; [|split; [|split]].
  - intros a v. apply memoized_call_keeps.
  - intros a v. unfold self', r.
    destruct (memoized_call_cache self args s)
      as [->|(Hnone & value & -> & ->)]; [by left|]. simpl.
    destruct (decide (args = a)) as [<-|Hne].
    + rewrite lookup_insert_eq. intros [= <-]. by right.
    + rewrite lookup_insert_ne by done. by left.
  - intros e. unfold self', r.
    destruct (memoized_call_cache self args s)
      as [->|(_ & value & -> & _)]; done.
  - intros Hinst Hhash. unfold memoized.__call__.
    by rewrite Hinst, Hhash.
Qed.
End memoized_facts.

(** [length_plus_runs] memoized: the first call with ["ab"] returns 2;
    after calls with ["c"] and ["ab"] again, and with the function now
    at its hundredth run, the answer is still 2 and the function is not
    run. *)
Lemma memoized_returns_first_value_witness :
  let call := memoized.__call__ (fun _ => true) hashes_but_list
                length_plus_runs in
  let self1 := (call memoized.__init__ "ab" 0%nat).1.2 in
  let self2 :=
    (memoized.calls (fun _ => true) hashes_but_list length_plus_runs
       self1 ["c"; "ab"] 1%nat).1.2 in
  (call memoized.__init__ "ab" 0%nat).1.1 = Done 2%nat
  ∧ call self2 "ab" 100%nat = (Done 2%nat, self2, 100%nat).
Proof.
  intros call self1 self2.
  assert ((call memoized.__init__ "ab" 0%nat).1.1 = Done 2%nat) as Hfirst
    by (vm_compute; reflexivity).
  split; [exact Hfirst|].
  exact (memoized_returns_first_value (fun _ => true) hashes_but_list
           length_plus_runs memoized.__init__ "ab" 0%nat 2%nat
           ["c"; "ab"] 1%nat eq_refl Hfirst 100%nat).
Defined.

(** An argument that cannot be hashed: [TypeError], and the function has
    not run. *)
Lemma memoized_cache_grows_witness :
  memoized.__call__ (fun _ => true) hashes_but_list length_plus_runs
    memoized.__init__ "[]" 0%nat
  = (Failed (TypeError "unhashable type"), memoized.__init__, 0%nat).
Proof.
  apply (memoized_cache_grows (fun _ => true) hashes_but_list
           length_plus_runs memoized.__init__ "[]" 0%nat); reflexivity.
Defined.

(** ** [get_profile_from_project] *)

Section profile_facts.
Variable h : heap.

(** X20 — a project without a ["target"] never yields a profile: the
    default for the target name is an empty dict, which cannot be a key,
    so the call fails, with [TypeError] unless ["outputs"] is there and
    is no mapping, which is an [AttributeError] before that. *)
Theorem get_profile_without_target (project : value)
    (items : list (string * value)) :
  as_dict h project = Some items →
  dict_lookup items "target" = None →
  get_profile_from_project h project
  = match dict_lookup items "outputs" with
    | Some outputs =>
        match as_dict h outputs with
        | Some _ => Failed (TypeError "unhashable type")
        | None =>
            Failed (Exn (AttributeError "object has no attribute 'get'"))
        end
    | None => Failed (TypeError "unhashable type")
    end.
Proof.
  intros Hproject Htarget. unfold get_profile_from_project.
  rewrite Hproject, Htarget.
  destruct (dict_lookup items "outputs") as [outputs|]; [|done].
  by destruct (as_dict h outputs).
Qed.

(** X21 — with a target name that can be hashed, and outputs that are
    a mapping or missing, the call returns: the entry of the outputs
    under the target name, the same object, if there is one, and a new
    empty dict if the outputs are missing, the target is no string or it
    names none of them. *)
Theorem get_profile_returns (project : value)
    (items : list (string * value)) (target_name : value) :
  as_dict h project = Some items →
  dict_lookup items "target" = Some target_name →
  hashable h (size h) target_name = true →
  (∀ outputs, dict_lookup items "outputs" = Some outputs →
              is_Some (as_dict h outputs)) →
  let entry :=
    outputs ← dict_lookup items "outputs";
    entries ← as_dict h outputs;
    name ← (match target_name with VStr name => Some name | _ => None end);
    dict_lookup entries name in
  get_profile_from_project h project
  = Done (match entry with
          | Some v => TKeep v
          | None => TDict []
          end).
Proof.
  intros Hproject Htarget Hhash Houtputs. unfold get_profile_from_project.
  rewrite Hproject, Htarget.
  destruct (dict_lookup items "outputs") as [outputs|]; simpl.
  - destruct (Houtputs outputs eq_refl) as [entries ->]. simpl.
    rewrite Hhash.
    destruct target_name as [| | |name|]; try done.
    simpl. by destruct (dict_lookup entries name).
  - rewrite Hhash. by destruct target_name.
Qed.
End profile_facts.

(** The project with target ["dev"] yields the entry of its outputs; the
    one without a target fails. *)
Lemma get_profile_returns_witness :
  get_profile_from_project profiles_config (VRef 0) = Done (TKeep (VRef 2)).
Proof.
  apply (get_profile_returns profiles_config (VRef 0)
           [("target", VStr "dev"); ("outputs", VRef 1)] (VStr "dev"));
    try reflexivity.
  intros outputs [= <-]. vm_compute. eauto.
Defined.

Lemma get_profile_without_target_witness :
  get_profile_from_project profiles_config (VRef 3)
  = Failed (TypeError "unhashable type").
Proof.
  exact (get_profile_without_target profiles_config (VRef 3)
           [("outputs", VRef 1)] eq_refl eq_refl).
Defined.

(** ** [args_to_dict] *)

Section dict_store_facts.
Context {A : Type}.
Implicit Types (d : list (string * A)) (key : string).

Lemma dict_lookup_Some_in d key v :
  dict_lookup d key = Some v → key ∈ d.*1.
Proof.
  induction d as [|[k w] d IH]; simpl; [done|].
  case_decide as Hk; [intros _; subst; apply list_elem_of_here|].
  intros ?%IH. by apply list_elem_of_further.
Qed.

Lemma dict_lookup_in d key :
  key ∈ d.*1 → is_Some (dict_lookup d key).
Proof.
  induction d as [|[k w] d IH]; simpl; [by intros ?%elem_of_nil|].
  case_decide; [by eauto|].
  intros [?|?]%elem_of_cons; [done|]. by apply IH.
Qed.

Lemma dict_lookup_None d key : dict_lookup d key = None ↔ key ∉ d.*1.
Proof.
  split.
  - intros Hnone Hin. apply dict_lookup_in in Hin as [v Hv]. congruence.
  - intros Hnot. destruct (dict_lookup d key) as [v|] eqn:Hv; [|done].
    by apply dict_lookup_Some_in in Hv.
Qed.

Lemma dict_lookup_setitem_eq d key (v : A) :
  dict_lookup (dict_setitem d key v) key = Some v.
Proof.
  induction d as [|[k w] d IH]; simpl; [by rewrite decide_True|].
  case_decide as Hk; simpl; [by rewrite decide_True|].
  by rewrite decide_False.
Qed.

Lemma dict_lookup_setitem_ne d key key' (v : A) :
  key ≠ key' →
  dict_lookup (dict_setitem d key v) key' = dict_lookup d key'.
Proof.
  intros Hne. induction d as [|[k w] d IH]; simpl; [by rewrite decide_False|].
  case_decide as Hk; simpl.
  - subst. by rewrite !decide_False.
  - by rewrite IH.
Qed.

Lemma dict_setitem_keys d key (v : A) :
  key ∈ d.*1 → (dict_setitem d key v).*1 = d.*1.
Proof.
  induction d as [|[k w] d IH]; simpl; [by intros ?%elem_of_nil|].
  case_decide as Hk; [done|].
  intros [?|?]%elem_of_cons; [done|]. rewrite !fmap_cons. by rewrite IH.
Qed.

Lemma dict_setitem_NoDup d key (v : A) :
  NoDup d.*1 → NoDup (dict_setitem d key v).*1.
Proof.
  intros Hnodup. destruct (decide (key ∈ d.*1)) as [Hin|Hnot].
  - by rewrite dict_setitem_keys.
  - rewrite dict_setitem_fresh by done. rewrite fmap_app. simpl.
    apply NoDup_app. split; [done|]. split; [|apply NoDup_singleton].
    intros k Hk ->%list_elem_of_singleton. done.
Qed.

Lemma dict_update_NoDup (other : list (string * A)) : ∀ d,
  NoDup d.*1 → NoDup (dict_update d other).*1.
Proof.
  unfold dict_update.
  induction other as [|[k v] other IH]; intros d Hnodup; simpl; [done|].
  by apply IH, dict_setitem_NoDup.
Qed.

(** After [d.update(other)] a key has the value [other] gave it last, or
    else the one it had. *)
Lemma dict_lookup_update (other : list (string * A)) : ∀ d key,
  dict_lookup (dict_update d other) key
  = match dict_lookup (dict_update [] other) key with
    | Some v => Some v
    | None => dict_lookup d key
    end.
Proof.
  unfold dict_update.
  induction other as [|[k v] other IH] using rev_ind; intros d key; [done|].
  rewrite !foldl_app. simpl.
  destruct (decide (k = key)) as [->|Hne].
  - by rewrite !dict_lookup_setitem_eq.
  - rewrite !dict_lookup_setitem_ne by done. apply IH.
Qed.

Lemma dict_update_empty (other : list (string * A)) :
  NoDup other.*1 → dict_update [] other = other.
Proof.
  unfold dict_update.
  induction other as [|[k v] other IH] using rev_ind; intros Hnodup; [done|].
  rewrite fmap_app in Hnodup. apply NoDup_app in Hnodup as (Hnodup & Hk & _).
  rewrite foldl_app. simpl. rewrite IH by done.
  apply dict_setitem_fresh. intros Hin. apply (Hk k Hin). simpl.
  apply list_elem_of_here.
Qed.

Lemma dict_lookup_middle (before after : list (string * A)) key (v : A) :
  key ∉ before.*1 →
  dict_lookup (before ++ (key, v) :: after) key = Some v.
Proof.
  induction before as [|[k w] before IH]; simpl; [by rewrite decide_True|].
  intros [Hne Hnot]%not_elem_of_cons. rewrite decide_False by done.
  by apply IH.
Qed.

Lemma dict_setitem_middle (before after : list (string * A)) key (v w : A) :
  key ∉ before.*1 →
  dict_setitem (before ++ (key, v) :: after) key w
  = before ++ (key, w) :: after.
Proof.
  induction before as [|[k u] before IH]; simpl; [by rewrite decide_True|].
  intros [Hne Hnot]%not_elem_of_cons. rewrite decide_False by done.
  by rewrite IH.
Qed.
End dict_store_facts.

Section args_to_dict_facts.
Implicit Types (var_args dict_args : list (string * arg)) (key : string).

(** One turn, on the item it is about: the keys of [var_args] stay, the
    values of the other keys stay, and [dict_args] gets the item or
    not. *)
Lemma args_to_dict_step_item (before after : list (string * arg)) key value
    dict_args :
  key ∉ before.*1 → key ∉ dict_args.*1 →
  ∃ value',
    args_to_dict_step (before ++ (key, value) :: after, dict_args) key
    = (before ++ (key, value') :: after,
       dict_args
       ++ match kept_item ((before ++ (key, value) :: after).*1) (key, value) with
          | Some kv => [kv]
          | None => []
          end).
Proof.
  intros Hbefore Hfresh.
  unfold args_to_dict_step, kept_item, skipped, var_arg. simpl.
  rewrite dict_lookup_middle by done. simpl.
  unfold dict_in.
  destruct (bool_decide (lower key ∈ (before ++ (key, value) :: after).*1)
            && bool_decide (key = upper key)); simpl;
    [exists value; by rewrite app_nil_r|].
  destruct (bool_decide (key ∈ ["cls"; "mp_context"])); simpl;
    [exists value; by rewrite app_nil_r|].
  destruct (is_None value) eqn:Hnone; simpl;
    [exists value; by rewrite app_nil_r|].
  destruct (bool_decide (key ∈ default_false_keys) && is_False value);
    simpl; [exists value; by rewrite app_nil_r|].
  destruct (bool_decide (key ∈ default_empty_yaml_dict_keys)
            && equals_str value "{}"); simpl;
    [exists value; by rewrite app_nil_r|].
  destruct value; simpl in *; try done;
    repeat (first [rewrite dict_setitem_middle by done
                  |rewrite dict_lookup_middle by done]; simpl);
    rewrite (dict_setitem_fresh dict_args) by done; eauto.
Qed.

Lemma args_to_dict_loop (after : list (string * arg)) :
  ∀ (before : list (string * arg)) dict_args,
    NoDup ((before ++ after).*1) →
    (∀ key, key ∈ after.*1 → key ∉ dict_args.*1) →
    (foldl args_to_dict_step (before ++ after, dict_args) after.*1).2
    = dict_args ++ omap (kept_item ((before ++ after).*1)) after.
Proof.
  induction after as [|[key value] after IH]; intros before dict_args Hnodup
    Hfresh.
  { simpl. by rewrite app_nil_r. }
  assert ((key ∉ before.*1) ∧ (key ∉ after.*1)) as [Hbefore Hafter].
  { rewrite fmap_app, fmap_cons in Hnodup.
    apply NoDup_app in Hnodup as (_ & Hdisjoint & [? _]%NoDup_cons).
    split; [|done]. intros Hin. apply (Hdisjoint key Hin).
    apply list_elem_of_here. }
  rewrite fmap_cons. cbn [foldl fst].
  destruct (args_to_dict_step_item before after key value dict_args)
    as [value' ->]; [done | apply Hfresh; apply list_elem_of_here |].
  assert ((before ++ (key, value) :: after).*1
          = ((before ++ [(key, value')]) ++ after).*1) as Hkeys.
  { by rewrite <- app_assoc, !fmap_app, !fmap_cons. }
  replace (before ++ (key, value') :: after)
    with ((before ++ [(key, value')]) ++ after) by by rewrite <- app_assoc.
  rewrite IH.
  - rewrite <- Hkeys, <- app_assoc. f_equal. simpl.
    by destruct (kept_item _ (key, value)).
  - by rewrite <- Hkeys.
  - intros k Hk. rewrite fmap_app, elem_of_app. intros [Hin|Hin].
    + revert Hin. apply Hfresh. by apply list_elem_of_further.
    + unfold kept_item in Hin. simpl in Hin.
      destruct (skipped _ key value); simpl in Hin;
        [by apply elem_of_nil in Hin|].
      apply list_elem_of_singleton in Hin. by subst.
Qed.

Lemma args_to_dict_omap (args flag_dict : list (string * arg)) :
  NoDup args.*1 →
  args_to_dict args flag_dict
  = omap (kept_item (dict_update args flag_dict).*1)
      (dict_update args flag_dict).
Proof.
  intros Hnodup. unfold args_to_dict.
  apply (args_to_dict_loop (dict_update args flag_dict) [] []).
  - by apply dict_update_NoDup.
  - intros key _ ?%elem_of_nil. done.
Qed.

(** X22 — the loop, with its updates of [var_args] in place, is one
    pass over the arguments updated by the flags: an item is left out or
    stored under its key, with a path stored as its string and the
    warn-error options as their dict, and the order of the items is the
    order of that mapping. *)
Theorem args_to_dict_one_pass (args flag_dict : list (string * arg)) :
  NoDup args.*1 →
  let var_args := dict_update args flag_dict in
  args_to_dict args flag_dict = omap (kept_item var_args.*1) var_args.
Proof. intros Hnodup var_args. by apply args_to_dict_omap. Qed.

(** What [args_to_dict] holds, item by item *)
Lemma args_to_dict_item (args flag_dict : list (string * arg)) key value :
  NoDup args.*1 →
  (key, value) ∈ args_to_dict args flag_dict →
  ∃ original,
    (key, original) ∈ dict_update args flag_dict
    ∧ skipped (dict_update args flag_dict).*1 key original = false
    ∧ value = stored original.
Proof.
  intros Hnodup. rewrite args_to_dict_omap by done.
  rewrite list_elem_of_omap. intros ([k original] & Hin & Hitem).
  unfold kept_item in Hitem. simpl in Hitem.
  destruct (skipped _ k original) eqn:Hskip; [done|].
  injection Hitem as <- <-. by exists original.
Qed.

Lemma kept_items_keys keys (d : list (string * arg)) key :
  key ∈ (omap (kept_item keys) d).*1 → key ∈ d.*1.
Proof.
  intros ([k value] & Heq & Hin)%list_elem_of_fmap. simpl in Heq. subst key.
  apply list_elem_of_omap in Hin as ([k' original] & Hin & Hitem).
  unfold kept_item in Hitem. simpl in *.
  destruct (skipped keys k' original); [done|]. injection Hitem as -> _.
  apply list_elem_of_fmap. by exists (k, original).
Qed.

Lemma kept_items_NoDup keys (d : list (string * arg)) :
  NoDup d.*1 → NoDup (omap (kept_item keys) d).*1.
Proof.
  induction d as [|[k v] d IH]; simpl; [done|].
  intros [Hk Hnodup]%NoDup_cons. unfold kept_item at 1. simpl.
  destruct (skipped keys k v); simpl; [by apply IH|].
  apply NoDup_cons. split; [|by apply IH].
  intros Hin. by apply Hk, (kept_items_keys keys).
Qed.

(** X23 — what is never in the result: a value [None], a path or
    warn-error options left unconverted, the keys ["cls"] and
    ["mp_context"], a [False] under one of the keys that are false by
    default, and an all-capitals key whose lower-case form is a key of
    the arguments or flags as well.  No key is there twice. *)
Theorem args_to_dict_never (args flag_dict : list (string * arg))
    key value :
  NoDup args.*1 →
  (key, value) ∈ args_to_dict args flag_dict →
  value ≠ ANone
  ∧ (∀ shown, value ≠ APath shown)
  ∧ (∀ d, value ≠ AWarnErrorOptions d)
  ∧ key ≠ "cls" ∧ key ≠ "mp_context"
  ∧ ¬ (key ∈ default_false_keys ∧ value = ABool false)
  ∧ ¬ (key = upper key ∧ lower key ∈ (dict_update args flag_dict).*1)
  ∧ NoDup (args_to_dict args flag_dict).*1.
Proof.
  intros Hnodup Hin.
  destruct (args_to_dict_item _ _ _ _ Hnodup Hin)
    as (original & _ & Hskip & ->).
  unfold skipped in Hskip.
  apply orb_false_iff in Hskip as [Hskip Hyaml].
  apply orb_false_iff in Hskip as [Hskip Hfalse].
  apply orb_false_iff in Hskip as [Hskip Hnone].
  apply orb_false_iff in Hskip as [Hcaps Hcls].
  apply bool_decide_eq_false in Hcls.
  split; [by destruct original|]. split; [by destruct original|].
  split; [by destruct original|].
  split; [intros ->; apply Hcls; set_solver|].
  split; [intros ->; apply Hcls; set_solver|].
  split; [|split].
  - intros [Hkey Hvalue].
    assert (is_False original = true) as Hoff
      by (by destruct original as [|[]| | | | |]).
    rewrite Hoff, andb_true_r in Hfalse.
    by apply bool_decide_eq_false in Hfalse.
  - intros [Hup Hlow].
    apply andb_false_iff in Hcaps
        as [?%bool_decide_eq_false|?%bool_decide_eq_false]; done.
  - rewrite args_to_dict_omap by done.
    by apply kept_items_NoDup, dict_update_NoDup.
Qed.

(** X24 — the flags win: a key that the flags have is stored with the
    flags' value, a key they do not have with the arguments' value; and
    the result has no key from anywhere else. *)
Theorem args_to_dict_flags_win (args flag_dict : list (string * arg))
    key value :
  NoDup args.*1 → NoDup flag_dict.*1 →
  (key, value) ∈ args_to_dict args flag_dict →
  ∃ original,
    value = stored original
    ∧ match dict_lookup flag_dict key with
      | Some flag => original = flag
      | None => dict_lookup args key = Some original
      end.
Proof.
  intros Hnodup Hflags Hin.
  destruct (args_to_dict_item _ _ _ _ Hnodup Hin)
    as (original & Hitem & _ & ->).
  exists original. split; [done|].
  assert (dict_lookup (dict_update args flag_dict) key = Some original)
    as Hlookup.
  { pose proof (dict_update_NoDup flag_dict args Hnodup) as Hkeys.
    apply list_elem_of_split in Hitem as (before & after & Heq).
    rewrite Heq in *. apply dict_lookup_middle.
    rewrite fmap_app, fmap_cons in Hkeys.
    apply NoDup_app in Hkeys as (_ & Hdisjoint & _).
    intros Hbefore. apply (Hdisjoint key Hbefore), list_elem_of_here. }
  rewrite dict_lookup_update, dict_update_empty in Hlookup by done.
  destruct (dict_lookup flag_dict key) as [flag|]; [congruence|done].
Qed.
End args_to_dict_facts.

(** The arguments and flags of a run: the flag's eight threads, not the
    argument's four; the path as a string, the options as a dict; and
    nothing of ["cls"], [THREADS], the [False], the ["{}"] and the
    [None]. *)
Lemma args_to_dict_one_pass_witness :
  args_to_dict run_args run_flags
  = [("threads", AOther (VInt 8)); ("profiles_dir", AStr "/home/dbt");
     ("warn_error_options", ADict [("include", ["all"])])].
Proof.
  rewrite (args_to_dict_one_pass run_args run_flags)
    by (apply (bool_decide_unpack _); vm_compute; exact I).
  vm_compute. reflexivity.
Defined.

Lemma args_to_dict_never_witness :
  (AStr "/home/dbt" : arg) ≠ ANone
  ∧ NoDup (args_to_dict run_args run_flags).*1.
Proof.
  destruct (args_to_dict_never run_args run_flags "profiles_dir"
              (AStr "/home/dbt")) as (Hnone & _ & _ & _ & _ & _ & _ & Hkeys).
  - apply (bool_decide_unpack _); vm_compute; exact I.
  - vm_compute. do 1 apply list_elem_of_further. apply list_elem_of_here.
  - by split.
Defined.

Lemma args_to_dict_flags_win_witness :
  ∃ original,
    AOther (VInt 8) = stored original ∧ original = AOther (VInt 8).
Proof.
  apply (args_to_dict_flags_win run_args run_flags "threads"
           (AOther (VInt 8))).
  - apply (bool_decide_unpack _); vm_compute; exact I.
  - apply (bool_decide_unpack _); vm_compute; exact I.
  - vm_compute. apply list_elem_of_here.
Defined.
